(** * A model of [check_events.py]: the event-identity and deduplication
    pipeline of the course-events scraper.

    Strings are lists of ASCII characters ([str]); Python exceptions are the
    [Raise] case of the result monad [res]. The URL functions the script uses
    ([urljoin], [urlparse], [urlunparse]) are modelled after CPython 3.11's
    [urllib.parse]. *)

From Stdlib Require Import Ascii String Sorted.
From stdpp Require Import base list gmap sets strings.

Definition str := list ascii.
Definition lit (s : string) : str := list_ascii_of_string s.

(** ** Python exceptions and the result monad *)

Inductive exn : Type :=
  | ValueError (msg : str)
  | QueryError (msg : str).

Inductive res (A : Type) : Type :=
  | Ok (a : A)
  | Raise (e : exn).
Arguments Ok {A} a.
Arguments Raise {A} e.

Global Instance res_ret : MRet res := fun A a => Ok a.
Global Instance res_bind : MBind res := fun A B f m =>
  match m with Ok a => f a | Raise e => Raise e end.

Definition res_map {A B} (f : A -> B) (m : res A) : res B :=
  match m with Ok a => Ok (f a) | Raise e => Raise e end.

(** ** Python string primitives *)

Fixpoint str_eqb (s t : str) : bool :=
  match s, t with
  | [], [] => true
  | c :: s', d :: t' => Ascii.eqb c d && str_eqb s' t'
  | _, _ => false
  end.

(** [c in s] for a single character [c]. *)
Definition mem_char (c : ascii) (s : str) : bool := existsb (Ascii.eqb c) s.

(** [x in l] for a list of strings. *)
Definition str_in (x : str) (l : list str) : bool := existsb (str_eqb x) l.

(** [s.find(c)], with [None] for Python's [-1]. *)
Fixpoint find_char (c : ascii) (s : str) : option nat :=
  match s with
  | [] => None
  | d :: t => if Ascii.eqb c d then Some 0 else option_map S (find_char c t)
  end.

(** First position of any character of [cs] in [s]. *)
Fixpoint find_any (cs : str) (s : str) : option nat :=
  match s with
  | [] => None
  | d :: t => if mem_char d cs then Some 0 else option_map S (find_any cs t)
  end.

(** [s.rfind(c)]. *)
Definition rfind_char (c : ascii) (s : str) : option nat :=
  match find_char c (rev s) with
  | Some j => Some (length s - S j)
  | None => None
  end.

(** [s.split(c, 1)], used when [c in s]: the parts before and after the
    first [c]. *)
Fixpoint split1 (c : ascii) (s : str) : str * str :=
  match s with
  | [] => ([], [])
  | d :: t => if Ascii.eqb c d then ([], t)
              else let '(a, b) := split1 c t in (d :: a, b)
  end.

(** [s.split(c)] for a one-character separator. *)
Fixpoint split_on_char (c : ascii) (s : str) : list str :=
  match s with
  | [] => [[]]
  | d :: t =>
      let rest := split_on_char c t in
      if Ascii.eqb c d then [] :: rest
      else match rest with
           | r :: rs => (d :: r) :: rs
           | [] => [[d]]
           end
  end.

(** [sep.join(l)]. *)
Fixpoint join (sep : str) (l : list str) : str :=
  match l with
  | [] => []
  | [x] => x
  | x :: l' => x ++ sep ++ join sep l'
  end.

(** [s.startswith(pre)], also [s[:len(pre)] == pre]. *)
Fixpoint startswith (pre s : str) : bool :=
  match pre, s with
  | [], _ => true
  | c :: pre', d :: s' => Ascii.eqb c d && startswith pre' s'
  | _ :: _, [] => false
  end.

Definition chr (n : nat) : ascii := ascii_of_nat n.

Definition is_c0_or_space (c : ascii) : bool := Nat.leb (nat_of_ascii c) 32.
Definition is_unsafe (c : ascii) : bool := mem_char c [chr 9; chr 13; chr 10].
Definition is_upper (c : ascii) : bool :=
  (65 <=? nat_of_ascii c) && (nat_of_ascii c <=? 90).
Definition is_lower (c : ascii) : bool :=
  (97 <=? nat_of_ascii c) && (nat_of_ascii c <=? 122).
Definition is_digit (c : ascii) : bool :=
  (48 <=? nat_of_ascii c) && (nat_of_ascii c <=? 57).
Definition is_alpha (c : ascii) : bool := is_upper c || is_lower c.
Definition lower_char (c : ascii) : ascii :=
  if is_upper c then chr (nat_of_ascii c + 32) else c.
Definition lower (s : str) : str := map lower_char s.

(** [s.lstrip(_WHATWG_C0_CONTROL_OR_SPACE)] *)
Fixpoint lstrip_c0 (s : str) : str :=
  match s with
  | [] => []
  | c :: t => if is_c0_or_space c then lstrip_c0 t else s
  end.

(** [s.strip(_WHATWG_C0_CONTROL_OR_SPACE)] *)
Definition strip_c0 (s : str) : str := rev (lstrip_c0 (rev (lstrip_c0 s))).

(** [for b in _UNSAFE_URL_BYTES_TO_REMOVE: s = s.replace(b, '')] *)
Definition remove_unsafe (s : str) : str := List.filter (fun c => negb (is_unsafe c)) s.

(** ** [urllib.parse] (CPython 3.11) *)

Definition uses_relative : list str :=
  [] :: map lit ["ftp"; "http"; "gopher"; "nntp"; "imap"; "wais"; "file";
           "https"; "shttp"; "mms"; "prospero"; "rtsp"; "rtspu"; "sftp";
           "svn"; "svn+ssh"; "ws"; "wss"].
Definition uses_netloc : list str :=
  [] :: map lit ["ftp"; "http"; "gopher"; "nntp"; "telnet"; "imap"; "wais";
           "file"; "mms"; "https"; "shttp"; "snews"; "prospero"; "rtsp";
           "rtspu"; "rsync"; "svn"; "svn+ssh"; "sftp"; "nfs"; "git";
           "git+ssh"; "ws"; "wss"].
Definition uses_params : list str :=
  [] :: map lit ["ftp"; "hdl"; "prospero"; "http"; "imap"; "https"; "shttp";
           "rtsp"; "rtspu"; "sip"; "sips"; "mms"; "sftp"; "tel"].

Definition is_scheme_char (c : ascii) : bool :=
  is_alpha c || is_digit c || mem_char c (lit "+-.").

Record split_result := {
  sr_scheme : str; sr_netloc : str; sr_path : str; sr_query : str; sr_fragment : str
}.

Record parse_result := {
  pr_scheme : str; pr_netloc : str; pr_path : str; pr_params : str;
  pr_query : str; pr_fragment : str
}.

Section UrlLib.

(** [_check_bracketed_host]: the validation of a bracketed host as an IPv6
    or IPvFuture literal ([ipaddress.ip_address] and a regular expression);
    [true] when the host is accepted. *)
Variable bracketed_host_ok : str -> bool.

(** The scheme detection of [urlsplit]: [i = url.find(':')] and the scheme
    is [url[:i].lower()] when [url[:i]] is a well-formed scheme. *)
Definition split_scheme (scheme url : str) : str * str :=
  match find_char ":" url with
  | Some i =>
      match url with
      | c :: _ =>
          if (0 <? i) && is_alpha c && forallb is_scheme_char (take i url)
          then (lower (take i url), drop (S i) url)
          else (scheme, url)
      | [] => (scheme, url)
      end
  | None => (scheme, url)
  end.

(** [_splitnetloc(url, 2)] *)
Definition splitnetloc (url : str) : str * str :=
  let u := drop 2 url in
  let delim := match find_any (lit "/?#") u with Some d => d | None => length u end in
  (take delim u, drop delim u).

(** [str.partition(c)] and [str.rpartition(c)][[2]] *)
Definition partition (c : ascii) (s : str) : str * bool * str :=
  if mem_char c s then let '(a, b) := split1 c s in (a, true, b) else (s, false, []).
Definition after_last (c : ascii) (s : str) : str :=
  match rfind_char c s with Some i => drop (S i) s | None => s end.

(** [_check_bracketed_netloc] *)
Definition check_bracketed_netloc (netloc : str) : res unit :=
  let hostname_and_port := after_last "@" netloc in
  let '(before_bracket, have_open_br, bracketed) := partition "[" hostname_and_port in
  hostinfo ←
    (if have_open_br then
       if negb (str_eqb before_bracket []) then Raise (ValueError (lit "Invalid IPv6 URL"))
       else
         let '(hostname, _, port) := partition "]" bracketed in
         if negb (str_eqb port []) && negb (startswith (lit ":") port)
         then Raise (ValueError (lit "Invalid IPv6 URL"))
         else Ok hostname
     else let '(hostname, _, _) := partition ":" hostname_and_port in Ok hostname);
  if bracketed_host_ok hostinfo then Ok tt
  else Raise (ValueError (lit "invalid bracketed host")).

(** The netloc step of [urlsplit]: [if url[:2] == '//': netloc, url =
    _splitnetloc(url, 2)] followed by the bracket checks. *)
Definition split_netloc_checked (url : str) : res (str * str) :=
  if startswith (lit "//") url then
    let '(netloc, url) := splitnetloc url in
    if (mem_char "[" netloc && negb (mem_char "]" netloc)) ||
       (mem_char "]" netloc && negb (mem_char "[" netloc))
    then Raise (ValueError (lit "Invalid IPv6 URL"))
    else if mem_char "[" netloc && mem_char "]" netloc
    then (_ ← check_bracketed_netloc netloc; Ok (netloc, url))
    else Ok (netloc, url)
  else Ok ([], url).

(** The fragment and query steps of [urlsplit]: [url.split('#', 1)], then
    [url.split('?', 1)]; the result is [(path, query, fragment)]. *)
Definition split_fragment_query (url : str) : str * str * str :=
  let '(url, fragment) := if mem_char "#" url then split1 "#" url else (url, []) in
  let '(url, query) := if mem_char "?" url then split1 "?" url else (url, []) in
  (url, query, fragment).

(** [urlsplit(url, scheme)]. [_checknetloc] only inspects non-ASCII
    netlocs, which the ASCII model does not have. *)
Definition urlsplit (url scheme : str) : res split_result :=
  let url := remove_unsafe (lstrip_c0 url) in
  let scheme := remove_unsafe (strip_c0 scheme) in
  let '(scheme, url) := split_scheme scheme url in
  nu ← split_netloc_checked url;
  let '(netloc, url) := nu in
  let '(url, query, fragment) := split_fragment_query url in
  Ok {| sr_scheme := scheme; sr_netloc := netloc; sr_path := url;
        sr_query := query; sr_fragment := fragment |}.

(** [_splitparams(url)] *)
Definition splitparams (url : str) : str * str :=
  let i :=
    if mem_char "/" url then
      match rfind_char "/" url with
      | Some r => option_map (Nat.add r) (find_char ";" (drop r url))
      | None => None
      end
    else find_char ";" url in
  match i with
  | Some i => (take i url, drop (S i) url)
  | None => (url, [])
  end.

(** [urlparse(url, scheme)] *)
Definition urlparse (url scheme : str) : res parse_result :=
  sr ← urlsplit url scheme;
  let '(path, params) :=
    if str_in (sr_scheme sr) uses_params && mem_char ";" (sr_path sr)
    then splitparams (sr_path sr) else (sr_path sr, []) in
  Ok {| pr_scheme := sr_scheme sr; pr_netloc := sr_netloc sr; pr_path := path;
        pr_params := params; pr_query := sr_query sr; pr_fragment := sr_fragment sr |}.

(** [urlunsplit] *)
Definition urlunsplit (scheme netloc url query fragment : str) : str :=
  let url :=
    if negb (str_eqb netloc []) ||
       (negb (str_eqb scheme []) && str_in scheme uses_netloc &&
        negb (startswith (lit "//") url))
    then let url := if negb (str_eqb url []) && negb (startswith (lit "/") url)
                    then "/"%char :: url else url in
         lit "//" ++ netloc ++ url
    else url in
  let url := if str_eqb scheme [] then url else scheme ++ ":"%char :: url in
  let url := if str_eqb query [] then url else url ++ "?"%char :: query in
  if str_eqb fragment [] then url else url ++ "#"%char :: fragment.

(** [urlunparse] *)
Definition urlunparse (p : parse_result) : str :=
  let url := if str_eqb (pr_params p) [] then pr_path p
             else pr_path p ++ ";"%char :: pr_params p in
  urlunsplit (pr_scheme p) (pr_netloc p) url (pr_query p) (pr_fragment p).

(** [segments[1:-1] = filter(None, segments[1:-1])] *)
Definition filter_inner_segments (segs : list str) : list str :=
  match segs with
  | [] => []
  | [x] => [x]
  | x :: rest =>
      x :: List.filter (fun s => negb (str_eqb s [])) (removelast rest)
        ++ [List.last rest []]
  end.

(** The [for seg in segments] loop of [urljoin]; the resolved path is kept
    reversed (its head is the last element). *)
Definition resolve_segment (resolved : list str) (seg : str) : list str :=
  if str_eqb seg (lit "..") then
    match resolved with [] => [] | _ :: r => r end
  else if str_eqb seg (lit ".") then resolved
  else seg :: resolved.

(** [urljoin(base, url)] *)
Definition urljoin (base url : str) : res str :=
  if str_eqb base [] then Ok url
  else if str_eqb url [] then Ok base
  else
    bp ← urlparse base [];
    p ← urlparse url (pr_scheme bp);
    let scheme := pr_scheme p in
    if negb (str_eqb scheme (pr_scheme bp)) || negb (str_in scheme uses_relative)
    then Ok url
    else if str_in scheme uses_netloc && negb (str_eqb (pr_netloc p) [])
    then Ok (urlunparse p)
    else
      let netloc := if str_in scheme uses_netloc then pr_netloc bp else pr_netloc p in
      if str_eqb (pr_path p) [] && str_eqb (pr_params p) [] then
        Ok (urlunparse {| pr_scheme := scheme; pr_netloc := netloc;
                          pr_path := pr_path bp; pr_params := pr_params bp;
                          pr_query := if str_eqb (pr_query p) [] then pr_query bp
                                      else pr_query p;
                          pr_fragment := pr_fragment p |})
      else
        let base_parts := split_on_char "/" (pr_path bp) in
        let base_parts := if str_eqb (List.last base_parts []) [] then base_parts
                          else removelast base_parts in
        let segments :=
          if startswith (lit "/") (pr_path p) then split_on_char "/" (pr_path p)
          else filter_inner_segments (base_parts ++ split_on_char "/" (pr_path p)) in
        let resolved := foldl resolve_segment [] segments in
        let resolved :=
          if str_in (List.last segments []) [lit "."; lit ".."] then [] :: resolved
          else resolved in
        let path := join (lit "/") (rev resolved) in
        let path := if str_eqb path [] then lit "/" else path in
        Ok (urlunparse {| pr_scheme := scheme; pr_netloc := netloc; pr_path := path;
                          pr_params := pr_params p; pr_query := pr_query p;
                          pr_fragment := pr_fragment p |}).

(** ** [normalize_url] (check_events.py, lines 46-55) *)

Definition normalize_url (url base_url : str) : res (str * str) :=
  absolute_url ← urljoin base_url url;
  parsed ← urlparse absolute_url [];
  let normalized := urlunparse {| pr_scheme := pr_scheme parsed;
                                  pr_netloc := pr_netloc parsed;
                                  pr_path := pr_path parsed;
                                  pr_params := []; pr_query := []; pr_fragment := [] |} in
  Ok (normalized, absolute_url).

(** ** Query and fragment of a URL string

    RFC 3986: the query starts at the first [?] and the fragment at the
    first [#]; [before_query_fragment u] is [u] with both removed. *)

Definition is_qf (c : ascii) : bool := Ascii.eqb c "?" || Ascii.eqb c "#".

Fixpoint before_query_fragment (s : str) : str :=
  match s with
  | [] => []
  | c :: t => if is_qf c then [] else c :: before_query_fragment t
  end.

Fixpoint query_fragment_part (s : str) : str :=
  match s with
  | [] => []
  | c :: t => if is_qf c then s else query_fragment_part t
  end.

(** The identity half of [normalize_url], applied to the resolved URL. *)
Definition identity_of (absolute_url : str) : res str :=
  parsed ← urlparse absolute_url [];
  Ok (urlunparse {| pr_scheme := pr_scheme parsed; pr_netloc := pr_netloc parsed;
                    pr_path := pr_path parsed;
                    pr_params := []; pr_query := []; pr_fragment := [] |}).

End UrlLib.

(** URLs of the plain form [scheme://host/path[?query][#fragment]]: a
    lower-case scheme, a host without [/ ? # [ ]], and a path that starts
    with [/] and has no [;] parameters; none of them holds a tab or a line
    break. *)
Definition plain_scheme_char (c : ascii) : bool :=
  is_lower c || is_digit c || mem_char c (lit "+-.").
Definition plain_scheme (s : str) : bool :=
  match s with c :: _ => is_lower c && forallb plain_scheme_char s | [] => false end.
Definition plain_host_char (c : ascii) : bool :=
  negb (mem_char c (lit "/?#[]")) && negb (is_unsafe c).
Definition plain_host (h : str) : bool :=
  negb (str_eqb h []) && forallb plain_host_char h.
Definition plain_path_char (c : ascii) : bool :=
  negb (mem_char c (lit "?#;")) && negb (is_unsafe c).
Definition plain_path (p : str) : bool :=
  match p with c :: _ => Ascii.eqb c "/" && forallb plain_path_char p | [] => false end.

(** ** More string primitives for the feed and the state file *)

(** [s.replace(c, r)] for a one-character [c]. *)
Fixpoint replace_char (c : ascii) (r : str) (s : str) : str :=
  match s with
  | [] => []
  | d :: t => if Ascii.eqb c d then r ++ replace_char c r t else d :: replace_char c r t
  end.

(** [xml.sax.saxutils.escape(data)] with no extra entities: [&] first, then
    [>], then [<]. *)
Definition escape (data : str) : str :=
  replace_char "<" (lit "&lt;")
    (replace_char ">" (lit "&gt;") (replace_char "&" (lit "&amp;") data)).

(** [s.find(sub)] for a string [sub], [None] for [-1]. *)
Fixpoint find_sub (sub s : str) : option nat :=
  match s with
  | [] => if startswith sub [] then Some 0 else None
  | _ :: t => if startswith sub s then Some 0 else option_map S (find_sub sub t)
  end.

(** [s.split(sep)] for a non-empty [sep]: the scan goes left to right, and
    after a match skips the rest of the separator ([skip]); [cur] is the
    current part, reversed. *)
Fixpoint split_go (sep s cur : str) (skip : nat) : list str :=
  match s with
  | [] => [rev cur]
  | c :: s' =>
      match skip with
      | S k => split_go sep s' cur k
      | O => if startswith sep s then rev cur :: split_go sep s' [] (pred (length sep))
             else split_go sep s' (c :: cur) O
      end
  end.

Definition split_str (sep s : str) : list str := split_go sep s [] 0.

(** A file read in text mode (universal newlines): [\r\n] and a lone [\r]
    both become [\n]. *)
Fixpoint universal_newlines (s : str) : str :=
  match s with
  | [] => []
  | c :: s' =>
      if Ascii.eqb c (chr 13) then
        chr 10 :: match s' with
                  | d :: s'' => if Ascii.eqb d (chr 10) then universal_newlines s''
                                else universal_newlines s'
                  | [] => []
                  end
      else c :: universal_newlines s'
  end.

(** Python's order on [str]: code points compared from the left, a proper
    prefix first. *)
Fixpoint str_ltb (s t : str) : bool :=
  match s, t with
  | [], [] => false
  | [], _ :: _ => true
  | _ :: _, [] => false
  | c :: s', d :: t' =>
      if Nat.ltb (nat_of_ascii c) (nat_of_ascii d) then true
      else if Nat.eqb (nat_of_ascii c) (nat_of_ascii d) then str_ltb s' t'
      else false
  end.

Fixpoint insert_sorted (x : str) (l : list str) : list str :=
  match l with
  | [] => [x]
  | y :: l' => if str_ltb y x then y :: insert_sorted x l' else x :: l
  end.

(** [sorted(l)] *)
Fixpoint sorted_strs (l : list str) : list str :=
  match l with
  | [] => []
  | x :: l' => insert_sorted x (sorted_strs l')
  end.

(** A non-empty string is true in a Python condition. *)
Definition truthy (s : str) : bool := match s with [] => false | _ => true end.

(** ** [datetime.utcnow().strftime('%a, %d %b %Y %H:%M:%S +0000')] *)

Record datetime := mk_datetime {
  dt_year : nat; dt_month : nat; dt_day : nat;
  dt_hour : nat; dt_minute : nat; dt_second : nat;
  dt_weekday : nat (* 0 is Monday *)
}.

(** [str(n)]: the decimal digits of [n], most significant first ([fuel]
    bounds the number of digits). *)
Fixpoint digits_go (fuel n : nat) (acc : str) : str :=
  match fuel with
  | O => acc
  | S f =>
      let acc' := ascii_of_nat (48 + n mod 10) :: acc in
      if Nat.ltb n 10 then acc' else digits_go f (n / 10) acc'
  end.
Definition digits (n : nat) : str := digits_go (S n) n [].
Definition pad2 (n : nat) : str := if Nat.ltb n 10 then "0"%char :: digits n else digits n.
Definition weekday_abbr (d : nat) : str :=
  lit (nth d ["Mon"; "Tue"; "Wed"; "Thu"; "Fri"; "Sat"; "Sun"]%string EmptyString).
Definition month_abbr (m : nat) : str :=
  lit (nth (pred m) ["Jan"; "Feb"; "Mar"; "Apr"; "May"; "Jun";
                     "Jul"; "Aug"; "Sep"; "Oct"; "Nov"; "Dec"]%string EmptyString).

Definition strftime_rfc822 (t : datetime) : str :=
  weekday_abbr (dt_weekday t) ++ lit ", " ++ pad2 (dt_day t) ++ lit " "
  ++ month_abbr (dt_month t) ++ lit " " ++ digits (dt_year t) ++ lit " "
  ++ pad2 (dt_hour t) ++ lit ":" ++ pad2 (dt_minute t) ++ lit ":"
  ++ pad2 (dt_second t) ++ lit " +0000".

(** ** Events, the parsed page and the configuration *)

(** The event dict [{'id', 'link', 'title', 'date'}]. *)
Record event := mk_event {
  ev_id : str; ev_link : str; ev_title : str; ev_date : str
}.

(** The BeautifulSoup operations the script calls, on elements of type
    [node]; each may raise. *)
Class Dom (node : Type) := {
  dom_get : node -> str -> res (option str);      (* tag.get(name) *)
  dom_get_text : node -> res str;                 (* tag.get_text(strip=True) *)
  dom_parents : node -> res (list node);          (* list(tag.parents) *)
  dom_select_one : node -> str -> res (option node);
  dom_select : node -> str -> res (list node)
}.

(** The module-level settings read from the environment. *)
Record config := mk_config {
  TARGET_URL : str;
  REG_LINK_SELECTOR : str;
  TITLE_SELECTOR : str;
  DATE_SELECTOR : str;
  WEBHOOK_URL : str
}.

(** The state file as the JSON value it holds: absent, a JSON list of
    strings, or content that [json.load] or [set] rejects. *)
Inductive state_store :=
  | StateMissing
  | StateJson (ids : list str)
  | StateUnreadable.

(** [set(json.load(f))], or [set()] for a missing or rejected file. *)
Definition seen_of_store (s : state_store) : gset str :=
  match s with StateJson l => list_to_set l | _ => ∅ end.

Section Program.
Context {node : Type} {dom_inst : Dom node}.
Variable hok : str -> bool.
Variable cfg : config.

(** What the run sees and changes: the fetched page (already parsed; [None]
    when [requests.get] or [raise_for_status] fails), the state file, the
    feed file (whether reading or opening for writing fails), the clock read
    by [datetime.utcnow()] and the webhook posts sent. *)
Record world := mk_world {
  w_page : option node;
  w_state : state_store;
  w_state_writable : bool;
  w_feed : option str;
  w_feed_readable : bool;
  w_feed_writable : bool;
  w_now : nat -> datetime;
  w_tick : nat;
  w_posts : list event
}.

Definition set_state (s : state_store) (w : world) : world :=
  mk_world (w_page w) s (w_state_writable w) (w_feed w) (w_feed_readable w)
    (w_feed_writable w) (w_now w) (w_tick w) (w_posts w).
Definition set_feed (c : str) (w : world) : world :=
  mk_world (w_page w) (w_state w) (w_state_writable w) (Some c) (w_feed_readable w)
    (w_feed_writable w) (w_now w) (w_tick w) (w_posts w).
Definition tick (w : world) : world :=
  mk_world (w_page w) (w_state w) (w_state_writable w) (w_feed w) (w_feed_readable w)
    (w_feed_writable w) (w_now w) (S (w_tick w)) (w_posts w).
Definition add_post (e : event) (w : world) : world :=
  mk_world (w_page w) (w_state w) (w_state_writable w) (w_feed w) (w_feed_readable w)
    (w_feed_writable w) (w_now w) (w_tick w) (w_posts w ++ [e]).

(** A step of the script: it returns, or the process ends with an exit
    status ([sys.exit(n)], or 1 for an uncaught exception). *)
Inductive outcome (A : Type) :=
  | Done (a : A) (w : world)
  | Exit (code : nat) (w : world).
Arguments Done {A} a w.
Arguments Exit {A} code w.

Definition prog (A : Type) : Type := world -> outcome A.

#[local] Instance prog_ret : MRet prog := fun A a w => Done a w.
#[local] Instance prog_bind : MBind prog := fun A B f m w =>
  match m w with Done a w' => f a w' | Exit c w' => Exit c w' end.

Definition sys_exit {A} (code : nat) : prog A := fun w => Exit code w.

(** An exception nobody catches ends the process with status 1. *)
Definition uncaught {A} (r : res A) : prog A :=
  fun w => match r with Ok a => Done a w | Raise _ => Exit 1 w end.

Definition utcnow : prog datetime := fun w => Done (w_now w (w_tick w)) (tick w).

(** ** [extract_event_data] (lines 58-112) *)

(** The title loop over the ancestors. *)
Fixpoint find_title (ancestors : list node) : res (option str) :=
  match ancestors with
  | [] => Ok None
  | ancestor :: rest =>
      title_elem ← dom_select_one ancestor (TITLE_SELECTOR cfg);
      match title_elem with
      | Some e => t ← dom_get_text e; Ok (Some t)
      | None => find_title rest
      end
  end.

(** The date loop: [date_elem.get('datetime') or date_elem.get_text(strip=True)]. *)
Fixpoint find_date (ancestors : list node) : res (option str) :=
  match ancestors with
  | [] => Ok None
  | ancestor :: rest =>
      date_elem ← dom_select_one ancestor (DATE_SELECTOR cfg);
      match date_elem with
      | Some e =>
          d ← dom_get e (lit "datetime");
          match d with
          | Some d' => if truthy d' then Ok (Some d')
                       else t ← dom_get_text e; Ok (Some t)
          | None => t ← dom_get_text e; Ok (Some t)
          end
      | None => find_date rest
      end
  end.

Definition opt_truthy (o : option str) : bool :=
  match o with Some s => truthy s | None => false end.

(** The body of the [try]. *)
Definition extract_event_body (link_element : node) (base_url : str) : res (option event) :=
  link_href ← res_map (default []) (dom_get link_element (lit "href"));
  if negb (truthy link_href) then Ok None else
  ids ← normalize_url hok link_href base_url;
  ancestors ← dom_parents link_element;
  title ← find_title ancestors;
  title ← (match title with
           | Some t => if truthy t then Ok t else
               txt ← dom_get_text link_element;
               Ok (if truthy txt then txt else lit "Untitled Event")
           | None =>
               txt ← dom_get_text link_element;
               Ok (if truthy txt then txt else lit "Untitled Event")
           end);
  ancestors' ← dom_parents link_element;
  date ← find_date ancestors';
  let date := match date with Some d => if truthy d then d else lit "Date TBD"
                              | None => lit "Date TBD" end in
  Ok (Some (mk_event (fst ids) (snd ids) title date)).

(** [except Exception: return None] *)
Definition extract_event_data (link_element : node) (base_url : str) : option event :=
  match extract_event_body link_element base_url with
  | Ok r => r
  | Raise _ => None
  end.

(** ** [load_seen_events] and [save_seen_events] (lines 115-133) *)

(** A missing file, or one [json.load] or [set] rejects, gives [set()]. *)
Definition load_seen_events : prog (gset str) := fun w => Done (seen_of_store (w_state w)) w.

(** [json.dump(sorted(list(seen_ids)), f)]; a failure to open the file for
    writing exits with status 1 and leaves the file as it was. A failure
    after the [open] (which has already truncated the file) is not
    modelled. *)
Definition save_seen_events (seen_ids : gset str) : prog unit := fun w =>
  if w_state_writable w then Done () (set_state (StateJson (sorted_strs (elements seen_ids))) w)
  else Exit 1 w.

(** ** [post_to_webhook] (lines 136-158): every failure is caught, so the
    post only reads the clock and is sent or not. *)
Definition send_post (event : event) : prog unit := fun w => Done () (add_post event w).

Definition post_to_webhook (event : event) : prog unit :=
  if negb (truthy (WEBHOOK_URL cfg)) then mret () else
  _ ← utcnow;
  send_post event.

(** ** [generate_rss_item] (lines 161-182) *)

Definition quote : ascii := chr 34.
Definition nl : str := [chr 10].

Definition rss_item_text (title link description pub_date : str) : str :=
  lit "  <item>" ++ nl
  ++ lit "    <title>" ++ title ++ lit "</title>" ++ nl
  ++ lit "    <link>" ++ link ++ lit "</link>" ++ nl
  ++ lit "    <description>" ++ description ++ lit "</description>" ++ nl
  ++ lit "    <pubDate>" ++ pub_date ++ lit "</pubDate>" ++ nl
  ++ lit "    <guid isPermaLink=" ++ [quote] ++ lit "true" ++ [quote] ++ lit ">"
  ++ link ++ lit "</guid>" ++ nl
  ++ lit "  </item>".

Definition generate_rss_item (event : event) : prog str :=
  let title := escape (ev_title event) in
  let link := escape (ev_link event) in
  let date_str := escape (ev_date event) in
  now ← utcnow;
  let pub_date := strftime_rfc822 now in
  let description := escape (lit "Registration Date: " ++ date_str) in
  mret (rss_item_text title link description pub_date).

(** [[generate_rss_item(event) for event in events]] *)
Fixpoint generate_items (events : list event) : prog (list str) :=
  match events with
  | [] => mret []
  | e :: rest => item ← generate_rss_item e; items ← generate_items rest; mret (item :: items)
  end.

(** ** [update_rss_feed] (lines 185-233) *)

(** The loop over [parts[:-1]]. *)
Fixpoint items_of_parts (parts : list str) : list str :=
  match parts with
  | [] => []
  | part :: rest =>
      match find_sub (lit "<item>") part with
      | Some item_start => (drop item_start part ++ lit "</item>") :: items_of_parts rest
      | None => items_of_parts rest
      end
  end.

Definition existing_items_of (content : str) : list str :=
  items_of_parts (removelast (split_str (lit "</item>") content)).

(** An absent feed file, or one that cannot be read, has no items. *)
Definition read_existing_items : prog (list str) := fun w =>
  Done (match w_feed w with
        | Some content =>
            if w_feed_readable w then existing_items_of (universal_newlines content) else []
        | None => []
        end) w.

Definition feed_header (feed_title feed_link feed_description build_date : str) : str :=
  lit "<?xml version=" ++ [quote] ++ lit "1.0" ++ [quote] ++ lit " encoding="
  ++ [quote] ++ lit "UTF-8" ++ [quote] ++ lit "?>" ++ nl
  ++ lit "<rss version=" ++ [quote] ++ lit "2.0" ++ [quote] ++ lit ">" ++ nl
  ++ lit "  <channel>" ++ nl
  ++ lit "    <title>" ++ feed_title ++ lit "</title>" ++ nl
  ++ lit "    <link>" ++ feed_link ++ lit "</link>" ++ nl
  ++ lit "    <description>" ++ feed_description ++ lit "</description>" ++ nl
  ++ lit "    <lastBuildDate>" ++ build_date ++ lit "</lastBuildDate>" ++ nl.

Definition feed_trailer : str := nl ++ lit "  </channel>" ++ nl ++ lit "</rss>" ++ nl.

Definition feed_text (feed_title feed_link feed_description build_date items : str) : str :=
  feed_header feed_title feed_link feed_description build_date ++ items ++ feed_trailer.

(** A failure to open the feed for writing exits with status 1 and leaves
    the file as it was. A failure after the [open] (which has already
    truncated the file) is not modelled. *)
Definition write_feed (content : str) : prog unit := fun w =>
  if w_feed_writable w then Done () (set_feed content w) else Exit 1 w.

Definition update_rss_feed (new_events : list event) : prog unit :=
  match new_events with
  | [] => mret ()
  | _ :: _ =>
      existing_items ← read_existing_items;
      new_items ← generate_items (rev new_events);
      let all_items := new_items ++ existing_items in
      let feed_title := escape (lit "EUGLOH Course Events") in
      let feed_link := escape (TARGET_URL cfg) in
      let feed_description := escape (lit "New course registration opportunities from EUGLOH") in
      now ← utcnow;
      let build_date := strftime_rfc822 now in
      write_feed (feed_text feed_title feed_link feed_description build_date (concat all_items))
  end.

(** ** [scrape_events] (lines 236-273) *)

(** [requests.get(TARGET_URL)] and [BeautifulSoup(...)]; a failed request
    exits with status 1. *)
Definition fetch_page : prog node := fun w =>
  match w_page w with Some soup => Done soup w | None => Exit 1 w end.

(** The loop that keeps the truthy results of [extract_event_data]. *)
Fixpoint collect_events (link_elements : list node) : list event :=
  match link_elements with
  | [] => []
  | link_elem :: rest =>
      match extract_event_data link_elem (TARGET_URL cfg) with
      | Some event => event :: collect_events rest
      | None => collect_events rest
      end
  end.

(** [[e for e in events if e['id'] not in seen_ids]] *)
Definition new_events_of (events : list event) (seen_ids : gset str) : list event :=
  List.filter (fun e => negb (bool_decide (ev_id e ∈ seen_ids))) events.

Definition scrape_events : prog (list event * gset str) :=
  soup ← fetch_page;
  link_elements ← uncaught (dom_select soup (REG_LINK_SELECTOR cfg));
  let events := collect_events link_elements in
  seen_ids ← load_seen_events;
  mret (new_events_of events seen_ids, seen_ids).

(** ** [main] (lines 276-323) *)

(** The loop over the new events: post, then [seen_ids.add(event['id'])]. *)
Fixpoint process_events (new_events : list event) (seen_ids : gset str) : prog (gset str) :=
  match new_events with
  | [] => mret seen_ids
  | e :: rest => post_to_webhook e;; process_events rest ({[ev_id e]} ∪ seen_ids)
  end.

Definition main : prog unit :=
  r ← scrape_events;
  let '(new_events, seen_ids) := r in
  match new_events with
  | [] => save_seen_events seen_ids
  | _ :: _ =>
      seen_ids' ← process_events new_events seen_ids;
      update_rss_feed new_events;;
      save_seen_events seen_ids'
  end.

(** The exit status and the final world of a run. *)
Definition run_main (w : world) : nat * world :=
  match main w with Done _ w' => (0, w') | Exit c w' => (c, w') end.

End Program.

Arguments Done {node A} a w.
Arguments Exit {node A} code w.

(** * Proofs *)

Definition any_host (_ : str) : bool := true.

(** ** A small page for running the model

    Element [i] of the list is node [i] (node 0 is the document); each
    element has its attributes, its text (already stripped), its parent,
    and the selectors it matches. *)
Record toy_elem := mk_toy_elem {
  te_attrs : list (str * str);
  te_text : str;
  te_parent : option nat;
  te_matches : list str
}.

Fixpoint toy_assoc (k : str) (l : list (str * str)) : option str :=
  match l with
  | [] => None
  | (k', v) :: l' => if str_eqb k k' then Some v else toy_assoc k l'
  end.

Fixpoint toy_ancestors (page : list toy_elem) (fuel : nat) (p : option nat) : list nat :=
  match fuel, p with
  | S f, Some i =>
      i :: toy_ancestors page f (match page !! i with Some e => te_parent e | None => None end)
  | _, _ => []
  end.

Definition toy_parents (page : list toy_elem) (i : nat) : list nat :=
  match page !! i with Some e => toy_ancestors page (length page) (te_parent e) | None => [] end.

Definition toy_matching (page : list toy_elem) (a : nat) (sel : str) : list nat :=
  List.filter (fun j => existsb (Nat.eqb a) (toy_parents page j)
                        && match page !! j with Some e => str_in sel (te_matches e)
                                             | None => false end)
    (seq 0 (length page)).

Definition toy_dom (page : list toy_elem) : Dom nat := {|
  dom_get i k := Ok (match page !! i with Some e => toy_assoc k (te_attrs e) | None => None end);
  dom_get_text i := Ok (match page !! i with Some e => te_text e | None => [] end);
  dom_parents i := Ok (toy_parents page i);
  dom_select_one a sel := Ok (head (toy_matching page a sel));
  dom_select a sel := Ok (toy_matching page a sel)
|}.

Definition toy_cfg : config := {|
  TARGET_URL := lit "https://x.org/courses/";
  REG_LINK_SELECTOR := lit "a.reg";
  TITLE_SELECTOR := lit "h5.headline";
  DATE_SELECTOR := lit "time, .date";
  WEBHOOK_URL := []
|}.

Definition toy_link (parent : nat) (href text : string) : toy_elem :=
  mk_toy_elem [(lit "href", lit href)] (lit text) (Some parent) [lit "a.reg"].

(** Two course cards, the second one without a title or a date. *)
Definition toy_page : list toy_elem := [
  mk_toy_elem [] [] None [];
  mk_toy_elem [] [] (Some 0) [];
  mk_toy_elem [] (lit "Course A & B") (Some 1) [lit "h5.headline"];
  mk_toy_elem [(lit "datetime", lit "2025-03-01")] (lit "1 March") (Some 1) [lit "time, .date"];
  toy_link 1 "/reg/a?sid=1" "Register";
  mk_toy_elem [] [] (Some 0) [];
  toy_link 5 EmptyString "Empty";
  toy_link 5 "../reg/b#top" "Sign up"
].

(** A page without titles or dates: a link whose host is a broken IPv6
    literal, and a link without text. *)
Definition toy_page_bad : list toy_elem := [
  mk_toy_elem [] [] None [];
  mk_toy_elem [] [] (Some 0) [];
  toy_link 1 "http://[x/" "Register";
  toy_link 1 "/reg/c" EmptyString
].

Definition toy_world (page_ok : bool) (state : state_store) (feed : option str)
    (state_w feed_w : bool) : @world nat := {|
  w_page := if page_ok then Some 0 else None;
  w_state := state;
  w_state_writable := state_w;
  w_feed := feed;
  w_feed_readable := true;
  w_feed_writable := feed_w;
  w_now := fun i => mk_datetime 2025 3 (1 + i) 12 0 i 5;
  w_tick := 0;
  w_posts := []
|}.

Example normalize_scenario :
  normalize_url any_host (lit "/reg?sid=123#top") (lit "https://x.org/courses/")
  = Ok (lit "https://x.org/reg", lit "https://x.org/reg?sid=123#top").
Proof. vm_compute. reflexivity. Qed.

Example urljoin_rel1 :
  urljoin any_host (lit "http://a/b/c/d;p?q") (lit "../../g") = Ok (lit "http://a/g").
Proof. vm_compute. reflexivity. Qed.
Example urljoin_rel2 :
  urljoin any_host (lit "http://a/b/c/d;p?q") (lit "./g/.") = Ok (lit "http://a/b/c/g/").
Proof. vm_compute. reflexivity. Qed.
Example urljoin_rel3 :
  urljoin any_host (lit "http://a/b/c/d;p?q") (lit "?y") = Ok (lit "http://a/b/c/d;p?y").
Proof. vm_compute. reflexivity. Qed.
Example urljoin_rel4 :
  urljoin any_host (lit "http://a/b/c/d;p?q") (lit "g;x?y#s") = Ok (lit "http://a/b/c/g;x?y#s").
Proof. vm_compute. reflexivity. Qed.
Example urljoin_rel5 :
  urljoin any_host (lit "http://a/b/c/d;p?q") (lit "//g") = Ok (lit "http://g").
Proof. vm_compute. reflexivity. Qed.
Example urljoin_rel6 :
  urljoin any_host (lit "http://a/b/c/d;p?q") (lit "../../../g") = Ok (lit "http://a/g").
Proof. vm_compute. reflexivity. Qed.
Example urljoin_rel7 :
  urljoin any_host (lit "http://a/b/c/d;p?q") (lit "#s") = Ok (lit "http://a/b/c/d;p?q#s").
Proof. vm_compute. reflexivity. Qed.
Example urljoin_rel8 :
  urljoin any_host (lit "http://a/b/c/d;p?q") (lit "g/../h") = Ok (lit "http://a/b/c/h").
Proof. vm_compute. reflexivity. Qed.

(** ** Character and string lemmas *)

Definition qf_free (s : str) : Prop := Forall (fun c => is_qf c = false) s.
Definition qf_tail (s : str) : Prop :=
  match s with [] => True | c :: _ => is_qf c = true end.

Lemma is_qf_cases c : is_qf c = true -> c = "?"%char \/ c = "#"%char.
Proof.
  unfold is_qf. intros H. apply orb_true_iff in H as [H | H];
    apply Ascii.eqb_eq in H; auto.
Qed.

Lemma before_after_query_fragment s :
  s = before_query_fragment s ++ query_fragment_part s /\
  qf_free (before_query_fragment s) /\ qf_tail (query_fragment_part s).
Proof.
  induction s as [|c t IH]; simpl.
  - split; [done | split; [constructor | done]].
  - destruct (is_qf c) eqn:E; simpl.
    + split; [done | split; [constructor | exact E]].
    + destruct IH as (H1 & H2 & H3). split; [by f_equal | split; [by constructor | done]].
Qed.

Lemma qf_free_app s t : qf_free (s ++ t) <-> qf_free s /\ qf_free t.
Proof. apply Forall_app. Qed.

Lemma qf_free_take n s : qf_free s -> qf_free (take n s).
Proof. apply Forall_take. Qed.

Lemma qf_free_drop n s : qf_free s -> qf_free (drop n s).
Proof. apply Forall_drop. Qed.

Lemma find_char_app c p r :
  find_char c (p ++ r) =
  match find_char c p with
  | Some i => Some i
  | None => option_map (Nat.add (length p)) (find_char c r)
  end.
Proof.
  induction p as [|d p IH]; simpl.
  - by destruct (find_char c r).
  - destruct (Ascii.eqb c d); [done|]. rewrite IH.
    destruct (find_char c p); [done|]. by destruct (find_char c r).
Qed.

Lemma find_char_lt c p i : find_char c p = Some i -> i < length p.
Proof.
  revert i. induction p as [|d p IH]; simpl; intros i H; [done|].
  destruct (Ascii.eqb c d); [injection H as <-; lia|].
  destruct (find_char c p) eqn:E; simpl in H; [|done].
  injection H as <-. specialize (IH _ eq_refl). lia.
Qed.

Lemma find_any_app cs p r :
  find_any cs (p ++ r) =
  match find_any cs p with
  | Some i => Some i
  | None => option_map (Nat.add (length p)) (find_any cs r)
  end.
Proof.
  induction p as [|d p IH]; simpl.
  - by destruct (find_any cs r).
  - destruct (mem_char d cs); [done|]. rewrite IH.
    destruct (find_any cs p); [done|]. by destruct (find_any cs r).
Qed.

Lemma find_any_lt cs p i : find_any cs p = Some i -> i < length p.
Proof.
  revert i. induction p as [|d p IH]; simpl; intros i H; [done|].
  destruct (mem_char d cs); [injection H as <-; lia|].
  destruct (find_any cs p) eqn:E; simpl in H; [|done].
  injection H as <-. specialize (IH _ eq_refl). lia.
Qed.

Lemma mem_char_app c p r : mem_char c (p ++ r) = mem_char c p || mem_char c r.
Proof. unfold mem_char. apply existsb_app. Qed.

Lemma mem_char_qf_free c p : is_qf c = true -> qf_free p -> mem_char c p = false.
Proof.
  intros Hc. induction 1 as [|d p Hd Hp IH]; simpl; [done|].
  rewrite IH, orb_false_r. destruct (Ascii.eqb c d) eqn:E; [|done].
  apply Ascii.eqb_eq in E. subst. congruence.
Qed.

Lemma split1_app_notin c p r :
  mem_char c p = false -> split1 c (p ++ r) = let '(a, b) := split1 c r in (p ++ a, b).
Proof.
  induction p as [|d p IH]; simpl; intros H.
  - by destruct (split1 c r).
  - apply orb_false_iff in H as [H1 H2]. rewrite H1, IH by done.
    by destruct (split1 c r).
Qed.

(** ** [urlsplit] only looks at the text before the query for the scheme,
    the netloc and the path *)

Lemma is_qf_not_c0 c : is_qf c = true -> is_c0_or_space c = false.
Proof. intros [-> | ->]%is_qf_cases; reflexivity. Qed.

Lemma is_qf_not_unsafe c : is_qf c = true -> is_unsafe c = false.
Proof. intros [-> | ->]%is_qf_cases; reflexivity. Qed.

Lemma is_qf_not_scheme_char c : is_qf c = true -> is_scheme_char c = false.
Proof. intros [-> | ->]%is_qf_cases; reflexivity. Qed.

Lemma lstrip_c0_app p r : qf_tail r -> lstrip_c0 (p ++ r) = lstrip_c0 p ++ r.
Proof.
  intros Hr. induction p as [|c p IH]; simpl.
  - destruct r as [|c r]; simpl in *; [done|]. by rewrite is_qf_not_c0.
  - by destruct (is_c0_or_space c).
Qed.

Lemma lstrip_c0_qf_free p : qf_free p -> qf_free (lstrip_c0 p).
Proof.
  induction 1 as [|c p Hc Hp IH]; simpl; [constructor|].
  destruct (is_c0_or_space c); [done | by constructor].
Qed.

Lemma remove_unsafe_app p r : remove_unsafe (p ++ r) = remove_unsafe p ++ remove_unsafe r.
Proof. unfold remove_unsafe. apply List.filter_app. Qed.

Lemma remove_unsafe_qf_free p : qf_free p -> qf_free (remove_unsafe p).
Proof.
  induction 1 as [|c p Hc Hp IH]; simpl; [constructor|].
  destruct (negb (is_unsafe c)); [by constructor | done].
Qed.

Lemma remove_unsafe_qf_tail r : qf_tail r -> qf_tail (remove_unsafe r).
Proof.
  destruct r as [|c r]; simpl; [done|]. intros Hc.
  by rewrite is_qf_not_unsafe.
Qed.

Lemma forallb_take_qf_tail p r n :
  qf_tail r -> r <> [] -> length p < n -> forallb is_scheme_char (take n (p ++ r)) = false.
Proof.
  intros Hr Hne Hn. destruct r as [|c r]; [done|]. simpl in Hr.
  revert n Hn. induction p as [|d p IH]; intros n Hn; simpl in *.
  - destruct n as [|n]; [lia|]. simpl. by rewrite is_qf_not_scheme_char.
  - destruct n as [|n]; [lia|]. simpl. rewrite IH by lia. apply andb_false_r.
Qed.

Lemma split_scheme_qf_free d p : qf_free p -> qf_free (split_scheme d p).2.
Proof.
  intros Hp. unfold split_scheme.
  destruct (find_char ":" p); [|done]. destruct p as [|a p0]; [done|].
  destruct (_ && _ && _); [by apply qf_free_drop | done].
Qed.

Lemma split_scheme_app d p r :
  qf_free p -> qf_tail r ->
  split_scheme d (p ++ r) = ((split_scheme d p).1, (split_scheme d p).2 ++ r).
Proof.
  intros Hp Hr. destruct r as [|c r']; [rewrite !app_nil_r; by destruct (split_scheme d p)|].
  unfold split_scheme. rewrite find_char_app.
  destruct (find_char ":" p) as [i|] eqn:E.
  - pose proof (find_char_lt _ _ _ E) as Hi.
    destruct p as [|a p0]; [simpl in Hi; lia|].
    simpl. rewrite !app_comm_cons.
    simpl in Hi. rewrite take_app_le, drop_app_le by (simpl; lia).
    destruct (_ && _ && _); reflexivity.
  - simpl in Hr. destruct (is_qf_cases _ Hr) as [-> | ->]; simpl;
    (destruct (find_char ":" r') as [j|] eqn:E2; simpl; [|reflexivity]);
    (destruct p as [|a p0]; [reflexivity|]);
    (rewrite forallb_take_qf_tail by (simpl; first [done | lia]);
     cbn [app]; rewrite andb_false_r; reflexivity).
Qed.

Lemma startswith_slashes_app p r :
  qf_tail r -> startswith (lit "//") (p ++ r) = startswith (lit "//") p.
Proof.
  intros Hr. destruct r as [|c r']; [by rewrite app_nil_r|].
  destruct (is_qf_cases _ Hr) as [-> | ->];
    destruct p as [|a [|b p]]; simpl; rewrite ?andb_false_r; reflexivity.
Qed.

Lemma splitnetloc_app p r :
  startswith (lit "//") p = true -> qf_tail r ->
  splitnetloc (p ++ r) = ((splitnetloc p).1, (splitnetloc p).2 ++ r).
Proof.
  intros Hs Hr. destruct r as [|c r']; [rewrite !app_nil_r; by destruct (splitnetloc p)|].
  destruct p as [|a [|b q]]; simpl in Hs; rewrite ?andb_false_r in Hs; try discriminate.
  unfold splitnetloc. cbn [drop app]. rewrite !drop_0, find_any_app.
  destruct (find_any (lit "/?#") q) as [k|] eqn:E; simpl.
  - pose proof (find_any_lt _ _ _ E).
    rewrite take_app_le, drop_app_le by lia. reflexivity.
  - destruct (is_qf_cases _ Hr) as [-> | ->]; simpl;
      rewrite Nat.add_0_r, take_app_length, drop_app_length, take_ge, drop_ge by lia;
      reflexivity.
Qed.

Lemma splitnetloc_qf_free p : qf_free p -> qf_free (splitnetloc p).2.
Proof. intros Hp. unfold splitnetloc. simpl. by do 2 apply qf_free_drop. Qed.

Lemma split_netloc_checked_app hok u r :
  qf_tail r ->
  split_netloc_checked hok (u ++ r) =
  res_map (fun nv => (nv.1, nv.2 ++ r)) (split_netloc_checked hok u).
Proof.
  intros Hr. unfold split_netloc_checked. rewrite startswith_slashes_app by done.
  destruct (startswith (lit "//") u) eqn:Hs; [|reflexivity].
  rewrite splitnetloc_app by done. destruct (splitnetloc u) as [n v]; simpl.
  destruct (_ || _); [reflexivity|].
  destruct (_ && _); [|reflexivity].
  destruct (check_bracketed_netloc hok n); reflexivity.
Qed.

Lemma split_netloc_checked_qf_free hok u n v :
  qf_free u -> split_netloc_checked hok u = Ok (n, v) -> qf_free v.
Proof.
  intros Hu. unfold split_netloc_checked.
  destruct (startswith (lit "//") u); [|by intros [= <- <-]].
  pose proof (splitnetloc_qf_free _ Hu) as Hv.
  destruct (splitnetloc u) as [n' v']; simpl in Hv.
  destruct (_ || _); [done|].
  destruct (_ && _); [|by intros [= <- <-]].
  destruct (check_bracketed_netloc hok n'); simpl; [by intros [= <- <-] | done].
Qed.

Lemma split_fragment_query_free x :
  qf_free x -> split_fragment_query x = (x, [], []).
Proof.
  intros Hx. unfold split_fragment_query.
  rewrite !mem_char_qf_free by done. reflexivity.
Qed.

Lemma mem_char_cons_eq c t : mem_char c (c :: t) = true.
Proof. unfold mem_char. simpl. by rewrite Ascii.eqb_refl. Qed.

Lemma mem_char_cons_ne c d t : c <> d -> mem_char c (d :: t) = mem_char c t.
Proof.
  intros H. unfold mem_char. simpl.
  destruct (Ascii.eqb c d) eqn:E; [apply Ascii.eqb_eq in E; congruence | done].
Qed.

Lemma split1_cons_eq c t : split1 c (c :: t) = ([], t).
Proof. simpl. by rewrite Ascii.eqb_refl. Qed.

Lemma split1_cons_ne c d t :
  c <> d -> split1 c (d :: t) = let '(a, b) := split1 c t in (d :: a, b).
Proof.
  intros H. simpl.
  destruct (Ascii.eqb c d) eqn:E; [apply Ascii.eqb_eq in E; congruence | done].
Qed.

Lemma split_fragment_query_path x r :
  qf_free x -> qf_tail r -> (split_fragment_query (x ++ r)).1.1 = x.
Proof.
  intros Hx Hr. destruct r as [|c r']; [by rewrite app_nil_r, split_fragment_query_free|].
  assert (Hh : mem_char "#" x = false) by (by apply mem_char_qf_free).
  assert (Hq : mem_char "?" x = false) by (by apply mem_char_qf_free).
  unfold split_fragment_query. rewrite mem_char_app, Hh, orb_false_l.
  destruct (is_qf_cases _ Hr) as [-> | ->].
  - rewrite mem_char_cons_ne by done.
    destruct (mem_char "#" r') eqn:Er.
    + rewrite split1_app_notin, split1_cons_ne by done.
      destruct (split1 "#" r') as [a b].
      rewrite mem_char_app, Hq, mem_char_cons_eq, orb_true_r.
      rewrite split1_app_notin, split1_cons_eq by done. apply app_nil_r.
    + rewrite mem_char_app, Hq, mem_char_cons_eq, orb_true_r.
      rewrite split1_app_notin, split1_cons_eq by done. apply app_nil_r.
  - rewrite mem_char_cons_eq, split1_app_notin, split1_cons_eq by done.
    rewrite app_nil_r, Hq. reflexivity.
Qed.

Definition split_head (sr : split_result) : str * str * str :=
  (sr_scheme sr, sr_netloc sr, sr_path sr).

Lemma urlsplit_app hok p r d :
  qf_free p -> qf_tail r ->
  res_map split_head (urlsplit hok (p ++ r) d) = res_map split_head (urlsplit hok p d).
Proof.
  intros Hp Hr. unfold urlsplit.
  rewrite lstrip_c0_app, remove_unsafe_app by done.
  assert (Hp1 : qf_free (remove_unsafe (lstrip_c0 p)))
    by (apply remove_unsafe_qf_free, lstrip_c0_qf_free, Hp).
  assert (Hr1 : qf_tail (remove_unsafe r)) by (by apply remove_unsafe_qf_tail).
  revert Hp1 Hr1.
  generalize (remove_unsafe (lstrip_c0 p)) (remove_unsafe r) (remove_unsafe (strip_c0 d)).
  intros p1 r1 d1 Hp1 Hr1.
  rewrite split_scheme_app by done.
  pose proof (split_scheme_qf_free d1 _ Hp1) as Hu.
  destruct (split_scheme d1 p1) as [s u]; simpl in *.
  rewrite split_netloc_checked_app by done.
  destruct (split_netloc_checked hok u) as [[n v]|e] eqn:E; simpl; [|reflexivity].
  pose proof (split_netloc_checked_qf_free _ _ _ _ Hu E) as Hv.
  pose proof (split_fragment_query_path _ _ Hv Hr1) as Hpath.
  rewrite (split_fragment_query_free _ Hv).
  destruct (split_fragment_query (v ++ r1)) as [[a b] c]; simpl in *.
  unfold split_head; simpl. by rewrite Hpath.
Qed.

Definition parse_head (p : parse_result) : str * str * str * str :=
  (pr_scheme p, pr_netloc p, pr_path p, pr_params p).

Lemma urlparse_app hok p r d :
  qf_free p -> qf_tail r ->
  res_map parse_head (urlparse hok (p ++ r) d) = res_map parse_head (urlparse hok p d).
Proof.
  intros Hp Hr. pose proof (urlsplit_app hok p r d Hp Hr) as H. unfold urlparse.
  destruct (urlsplit hok (p ++ r) d) as [s1|e1], (urlsplit hok p d) as [s2|e2];
    simpl in H; try discriminate; [|congruence].
  destruct s1, s2; unfold split_head in H; simpl in H.
  injection H as -> -> ->. simpl.
  destruct (_ && _); [destruct (splitparams _)|]; reflexivity.
Qed.

Lemma identity_of_app hok p r :
  qf_free p -> qf_tail r -> identity_of hok (p ++ r) = identity_of hok p.
Proof.
  intros Hp Hr. pose proof (urlparse_app hok p r [] Hp Hr) as H. unfold identity_of.
  destruct (urlparse hok (p ++ r) []) as [s1|e1], (urlparse hok p []) as [s2|e2];
    simpl in H; try discriminate; [|congruence].
  destruct s1, s2; unfold parse_head in H; simpl in H.
  injection H as -> -> -> ->. reflexivity.
Qed.

Lemma identity_of_before_query_fragment hok s :
  identity_of hok s = identity_of hok (before_query_fragment s).
Proof.
  destruct (before_after_query_fragment s) as (Hs & Hp & Hr).
  rewrite Hs at 1. by apply identity_of_app.
Qed.

Lemma normalize_url_split hok u b :
  normalize_url hok u b =
  match urljoin hok b u with
  | Ok a => res_map (fun n => (n, a)) (identity_of hok a)
  | Raise e => Raise e
  end.
Proof.
  unfold normalize_url, identity_of. simpl.
  destruct (urljoin hok b u) as [a|e]; [|reflexivity]. simpl.
  destruct (urlparse hok a []); reflexivity.
Qed.

(** ** The identity of a plain URL *)

Lemma mem_char_false_iff c s : mem_char c s = false <-> Forall (fun d => Ascii.eqb c d = false) s.
Proof.
  unfold mem_char. induction s as [|d s IH]; simpl.
  - split; [constructor | done].
  - rewrite orb_false_iff, Forall_cons, IH. tauto.
Qed.

Lemma unsafe_code c : is_unsafe c = true -> nat_of_ascii c = 9 \/ nat_of_ascii c = 13 \/ nat_of_ascii c = 10.
Proof.
  unfold is_unsafe, mem_char. simpl. rewrite !orb_true_iff.
  intros [H | [H | [H | H]]]; try discriminate; apply Ascii.eqb_eq in H; subst; auto.
Qed.

Lemma eqb_code c d : Ascii.eqb c d = true -> nat_of_ascii c = nat_of_ascii d.
Proof. intros H. apply Ascii.eqb_eq in H. by subst. Qed.

Lemma eqb_false_code c d : nat_of_ascii c <> nat_of_ascii d -> Ascii.eqb c d = false.
Proof. intros H. destruct (Ascii.eqb c d) eqn:E; [apply eqb_code in E; lia | done]. Qed.

(** Replaces the code of each concrete character by its value, then [lia]. *)
Ltac code_lia :=
  repeat match goal with
  | |- context [nat_of_ascii (Ascii ?b0 ?b1 ?b2 ?b3 ?b4 ?b5 ?b6 ?b7)] =>
      let n := eval vm_compute in (nat_of_ascii (Ascii b0 b1 b2 b3 b4 b5 b6 b7)) in
      change (nat_of_ascii (Ascii b0 b1 b2 b3 b4 b5 b6 b7)) with n
  end; lia.

Lemma plain_scheme_char_facts c :
  plain_scheme_char c = true ->
  is_c0_or_space c = false /\ is_unsafe c = false /\ Ascii.eqb ":" c = false /\
  is_scheme_char c = true /\ is_upper c = false /\ is_qf c = false.
Proof.
  unfold plain_scheme_char, is_lower, is_digit. intros H.
  assert (Hc : 43 <= nat_of_ascii c <= 122 /\ nat_of_ascii c <> 58 /\
               ~ (65 <= nat_of_ascii c <= 90) /\ nat_of_ascii c <> 63 /\
               nat_of_ascii c <> 35).
  { apply orb_true_iff in H as [H | H]; [apply orb_true_iff in H as [H | H]|].
    - apply andb_true_iff in H as [H1 H2]. apply Nat.leb_le in H1, H2. lia.
    - apply andb_true_iff in H as [H1 H2]. apply Nat.leb_le in H1, H2. lia.
    - unfold mem_char in H. simpl in H. rewrite !orb_true_iff in H.
      destruct H as [H | [H | [H | H]]]; try discriminate;
        apply eqb_code in H; rewrite H; vm_compute; lia. }
  split; [unfold is_c0_or_space; apply Nat.leb_gt; lia|].
  split; [destruct (is_unsafe c) eqn:U; [apply unsafe_code in U; lia | done]|].
  split; [apply eqb_false_code; code_lia|].
  split.
  { revert H. unfold is_scheme_char, is_alpha, is_lower, is_digit.
    destruct ((97 <=? nat_of_ascii c) && (nat_of_ascii c <=? 122)),
      ((48 <=? nat_of_ascii c) && (nat_of_ascii c <=? 57)), (mem_char c (lit "+-."));
      intros H; try discriminate; rewrite ?orb_true_r; reflexivity. }
  split; [unfold is_upper; destruct (65 <=? nat_of_ascii c) eqn:A;
          [apply Nat.leb_le in A; simpl; apply Nat.leb_gt; lia | done]|].
  unfold is_qf. rewrite !eqb_false_code by code_lia. done.
Qed.

Lemma plain_host_char_facts c :
  plain_host_char c = true ->
  is_unsafe c = false /\ mem_char c (lit "/?#") = false /\ is_qf c = false /\
  Ascii.eqb "[" c = false /\ Ascii.eqb "]" c = false.
Proof.
  unfold plain_host_char. intros H. apply andb_true_iff in H as [H1 H2].
  apply negb_true_iff in H1, H2. unfold mem_char in H1. simpl in H1.
  rewrite !orb_false_iff in H1. destruct H1 as (A & B & C & D & E & _).
  unfold mem_char, is_qf. cbn [lit list_ascii_of_string existsb].
  rewrite (Ascii.eqb_sym "[" c), (Ascii.eqb_sym "]" c), A, B, C, D, E. done.
Qed.

Lemma plain_path_char_facts c :
  plain_path_char c = true ->
  is_unsafe c = false /\ is_qf c = false /\ Ascii.eqb ";" c = false.
Proof.
  unfold plain_path_char. intros H. apply andb_true_iff in H as [H1 H2].
  apply negb_true_iff in H1, H2. unfold mem_char in H1. simpl in H1.
  rewrite !orb_false_iff in H1. destruct H1 as (A & B & C & _).
  unfold is_qf. rewrite (Ascii.eqb_sym ";" c), A, B, C. done.
Qed.

Lemma bind_Ok {A B} (a : A) (f : A -> res B) : (Ok a ≫= f) = f a.
Proof. reflexivity. Qed.

Lemma forallb_Forall {A} (f : A -> bool) l : forallb f l = true -> Forall (fun x => f x = true) l.
Proof. rewrite forallb_forall, Forall_forall. intros H x Hx. apply H. by apply list_elem_of_In. Qed.

Lemma remove_unsafe_id s : Forall (fun c => is_unsafe c = false) s -> remove_unsafe s = s.
Proof. induction 1 as [|c s Hc Hs IH]; simpl; [done|]. by rewrite Hc, IH. Qed.

Lemma lower_id s : Forall (fun c => is_upper c = false) s -> lower s = s.
Proof.
  induction 1 as [|c s Hc Hs IH]; simpl; [done|].
  unfold lower_char at 1. by rewrite Hc, IH.
Qed.

Lemma find_char_none c s : mem_char c s = false -> find_char c s = None.
Proof.
  unfold mem_char. induction s as [|d s IH]; simpl; [done|].
  intros [-> H]%orb_false_iff. by rewrite IH.
Qed.

Lemma find_char_app_hit c p t :
  mem_char c p = false -> find_char c (p ++ c :: t) = Some (length p).
Proof.
  intros H. rewrite find_char_app, find_char_none by done. cbn [find_char].
  rewrite Ascii.eqb_refl. cbn. f_equal. lia.
Qed.

Lemma find_any_none cs s : Forall (fun d => mem_char d cs = false) s -> find_any cs s = None.
Proof. induction 1 as [|d s Hd Hs IH]; simpl; [done|]. by rewrite Hd, IH. Qed.

Lemma drop_S_length_app (l : str) x k : drop (S (length l)) (l ++ x :: k) = k.
Proof. induction l as [|y l IH]; simpl; [done|]. apply IH. Qed.

Lemma split_scheme_plain sch rest :
  plain_scheme sch = true -> split_scheme [] (sch ++ ":"%char :: rest) = (sch, rest).
Proof.
  intros Hs. destruct sch as [|c0 sch0]; [discriminate|].
  change (is_lower c0 && forallb plain_scheme_char (c0 :: sch0) = true) in Hs.
  apply andb_true_iff in Hs as [Hc0 Hall].
  pose proof (forallb_Forall _ _ Hall) as HF.
  assert (HF' := Forall_impl _ _ _ HF plain_scheme_char_facts).
  assert (Hcolon : mem_char ":" (c0 :: sch0) = false).
  { apply mem_char_false_iff. eapply Forall_impl; [exact HF'|]. simpl. tauto. }
  assert (Hsc : forallb is_scheme_char (c0 :: sch0) = true).
  { apply forallb_forall. intros x Hx. apply list_elem_of_In in Hx.
    rewrite Forall_forall in HF'. by apply HF'. }
  assert (Hlow : lower (c0 :: sch0) = c0 :: sch0).
  { apply lower_id. eapply Forall_impl; [exact HF'|]. simpl. tauto. }
  unfold split_scheme. rewrite find_char_app_hit by done.
  cbn [app]. rewrite app_comm_cons, take_app_length, Hsc, drop_S_length_app, Hlow.
  unfold is_alpha. rewrite Hc0, orb_true_r. reflexivity.
Qed.

Lemma split_netloc_checked_plain hok host path :
  plain_host host = true -> plain_path path = true ->
  split_netloc_checked hok (lit "//" ++ host ++ path) = Ok (host, path).
Proof.
  intros Hh Hp. apply andb_true_iff in Hh as [Hne Hh].
  pose proof (Forall_impl _ _ _ (forallb_Forall _ _ Hh) plain_host_char_facts) as HF.
  destruct path as [|p0 path0]; [discriminate|].
  simpl in Hp. apply andb_true_iff in Hp as [Hp0 _]. apply Ascii.eqb_eq in Hp0. subst p0.
  assert (Hopen : mem_char "[" host = false).
  { apply mem_char_false_iff. eapply Forall_impl; [exact HF|]. simpl. tauto. }
  assert (Hclose : mem_char "]" host = false).
  { apply mem_char_false_iff. eapply Forall_impl; [exact HF|]. simpl. tauto. }
  assert (Hany : find_any (lit "/?#") host = None).
  { apply find_any_none. eapply Forall_impl; [exact HF|]. simpl. tauto. }
  unfold split_netloc_checked, splitnetloc.
  change (lit "//" ++ host ++ "/"%char :: path0)
    with ("/"%char :: "/"%char :: host ++ "/"%char :: path0).
  replace (startswith (lit "//") _) with true by reflexivity.
  change (drop 2 ("/"%char :: "/"%char :: host ++ "/"%char :: path0))
    with (host ++ "/"%char :: path0).
  rewrite find_any_app, Hany. simpl option_map. rewrite Nat.add_0_r.
  rewrite take_app_length, drop_app_length, Hopen, Hclose. reflexivity.
Qed.

Lemma plain_facts sch host path :
  plain_scheme sch = true -> plain_host host = true -> plain_path path = true ->
  Forall (fun c => is_unsafe c = false /\ is_qf c = false) (sch ++ ":"%char :: lit "//" ++ host ++ path) /\
  mem_char ";" path = false /\ qf_free path /\ host <> [] /\
  exists path0, path = "/"%char :: path0.
Proof.
  intros Hs Hh Hp.
  assert (FS : Forall (fun c => is_unsafe c = false /\ is_qf c = false) sch).
  { destruct sch as [|c0 sch0]; [discriminate|].
    change (is_lower c0 && forallb plain_scheme_char (c0 :: sch0) = true) in Hs.
    apply andb_true_iff in Hs as [_ Hs].
    eapply Forall_impl; [apply (forallb_Forall _ _ Hs)|].
    intros c Hc. apply plain_scheme_char_facts in Hc. tauto. }
  apply andb_true_iff in Hh as [Hne Hh].
  assert (FH : Forall (fun c => is_unsafe c = false /\ is_qf c = false) host).
  { eapply Forall_impl; [apply (forallb_Forall _ _ Hh)|].
    intros c Hc. apply plain_host_char_facts in Hc. tauto. }
  destruct path as [|p0 path0]; [discriminate|].
  change (Ascii.eqb p0 "/" && forallb plain_path_char (p0 :: path0) = true) in Hp.
  apply andb_true_iff in Hp as [Hp0 Hp]. apply Ascii.eqb_eq in Hp0. subst p0.
  pose proof (Forall_impl _ _ _ (forallb_Forall _ _ Hp) plain_path_char_facts) as FP.
  split; [|split; [|split; [|split]]].
  - apply Forall_app. split; [done|].
    change (lit "//" ++ host ++ "/"%char :: path0)
      with ("/"%char :: "/"%char :: host ++ "/"%char :: path0).
    do 3 (constructor; [split; reflexivity|]).
    apply Forall_app. split; [done|].
    eapply Forall_impl; [exact FP|]. intros ? ?; simpl in *; tauto.
  - apply mem_char_false_iff. eapply Forall_impl; [exact FP|].
    intros c (_ & _ & H). by rewrite Ascii.eqb_sym.
  - eapply Forall_impl; [exact FP|]. intros ? ?; simpl in *; tauto.
  - destruct host; [discriminate | done].
  - eauto.
Qed.

Lemma identity_of_plain hok sch host path :
  plain_scheme sch = true -> plain_host host = true -> plain_path path = true ->
  identity_of hok (sch ++ ":"%char :: lit "//" ++ host ++ path) =
  Ok (sch ++ ":"%char :: lit "//" ++ host ++ path).
Proof.
  intros Hs Hh Hp.
  destruct (plain_facts _ _ _ Hs Hh Hp) as (HF & Hsemi & Hpq & Hne & path0 & ->).
  assert (Hlstrip : lstrip_c0 (sch ++ ":"%char :: lit "//" ++ host ++ "/"%char :: path0)
                    = sch ++ ":"%char :: lit "//" ++ host ++ "/"%char :: path0).
  { destruct sch as [|c0 sch0]; [discriminate|].
    change (is_lower c0 && forallb plain_scheme_char (c0 :: sch0) = true) in Hs.
    apply andb_true_iff in Hs as [_ Hs]. apply andb_true_iff in Hs as [Hc0 _].
    simpl. apply plain_scheme_char_facts in Hc0 as [-> _]. reflexivity. }
  assert (Hsplit : urlsplit hok (sch ++ ":"%char :: lit "//" ++ host ++ "/"%char :: path0) []
    = Ok {| sr_scheme := sch; sr_netloc := host; sr_path := "/"%char :: path0;
            sr_query := []; sr_fragment := [] |}).
  { unfold urlsplit. change (remove_unsafe (strip_c0 [])) with (@nil ascii).
    rewrite Hlstrip, remove_unsafe_id
      by (eapply Forall_impl; [exact HF | intros ? ?; simpl in *; tauto]).
    rewrite split_scheme_plain by done.
    rewrite split_netloc_checked_plain by done. rewrite bind_Ok. cbv beta iota.
    rewrite split_fragment_query_free by done. reflexivity. }
  unfold identity_of, urlparse. rewrite Hsplit, bind_Ok.
  cbn [sr_scheme sr_netloc sr_path sr_query sr_fragment].
  rewrite Hsemi, andb_false_r, bind_Ok.
  unfold urlunparse, urlunsplit. simpl pr_params. simpl pr_path.
  cbn [str_eqb]. simpl negb.
  destruct sch as [|c0 sch0]; [discriminate|]. destruct host as [|h0 host0]; [done|].
  simpl. reflexivity.
Qed.

Lemma before_query_fragment_app p r :
  qf_free p -> qf_tail r -> before_query_fragment (p ++ r) = p.
Proof.
  intros Hp Hr. induction Hp as [|c p Hc Hp IH]; simpl.
  - destruct r as [|c r]; simpl in *; [done|]. by rewrite Hr.
  - by rewrite Hc, IH.
Qed.

(** ** C1 *)

(** C1 (amended): [normalize_url] gives the same identity to two link
    references whose resolved URLs agree up to their query and fragment;
    and when the resolved URL is a plain [scheme://host/path[?query][#fragment]]
    (lower-case scheme, non-empty host without [/ ? # [ ]], path starting
    with [/] without [;] parameters, and no tab, CR or LF in any of them),
    the identity is that URL without its query and fragment. *)
Theorem normalize_url_identity hok :
  (forall base u1 u2 a1 a2,
     urljoin hok base u1 = Ok a1 -> urljoin hok base u2 = Ok a2 ->
     before_query_fragment a1 = before_query_fragment a2 ->
     res_map fst (normalize_url hok u1 base) = res_map fst (normalize_url hok u2 base)) /\
  (forall base u a sch host path r,
     urljoin hok base u = Ok a ->
     a = sch ++ ":"%char :: lit "//" ++ host ++ path ++ r ->
     plain_scheme sch = true -> plain_host host = true -> plain_path path = true ->
     qf_tail r ->
     res_map fst (normalize_url hok u base) = Ok (before_query_fragment a)).
Proof.
  split.
  - intros base u1 u2 a1 a2 H1 H2 Hq. rewrite !normalize_url_split, H1, H2.
    rewrite (identity_of_before_query_fragment hok a1),
            (identity_of_before_query_fragment hok a2), Hq.
    by destruct (identity_of hok (before_query_fragment a2)).
  - intros base u a sch host path r Hj -> Hs Hh Hp Hr.
    rewrite normalize_url_split, Hj.
    destruct (plain_facts _ _ _ Hs Hh Hp) as (HF & _).
    assert (Hfree : qf_free (sch ++ ":"%char :: lit "//" ++ host ++ path)).
    { eapply Forall_impl; [exact HF | intros ? ?; simpl in *; tauto]. }
    replace (sch ++ ":"%char :: lit "//" ++ host ++ path ++ r)
      with ((sch ++ ":"%char :: lit "//" ++ host ++ path) ++ r)
      by (rewrite <- app_assoc, <- app_comm_cons, <- !app_assoc; reflexivity).
    rewrite identity_of_app, identity_of_plain, before_query_fragment_app by done.
    reflexivity.
Qed.

Lemma normalize_url_identity_witness :
  res_map fst (normalize_url any_host (lit "/reg?sid=123#top") (lit "https://x.org/courses/"))
  = res_map fst (normalize_url any_host (lit "../reg#details") (lit "https://x.org/courses/")) /\
  res_map fst (normalize_url any_host (lit "/reg?sid=123#top") (lit "https://x.org/courses/"))
  = Ok (before_query_fragment (lit "https://x.org/reg?sid=123#top")).
Proof.
  split.
  - apply (proj1 (normalize_url_identity any_host) (lit "https://x.org/courses/") _ _
             (lit "https://x.org/reg?sid=123#top") (lit "https://x.org/reg#details")).
    + vm_compute. reflexivity.
    + vm_compute. reflexivity.
    + vm_compute. reflexivity.
  - apply (proj2 (normalize_url_identity any_host) _ _
             (lit "https://x.org/reg?sid=123#top") (lit "https") (lit "x.org")
             (lit "/reg") (lit "?sid=123#top")).
    + vm_compute. reflexivity.
    + vm_compute. reflexivity.
    + vm_compute. reflexivity.
    + vm_compute. reflexivity.
    + vm_compute. reflexivity.
    + vm_compute. reflexivity.
Defined.

(** C1, counterexample to the unamended claim: the resolved URL
    [https://x.org/reg;jsessionid=7?x=1] has the identity [https://x.org/reg],
    not [https://x.org/reg;jsessionid=7]: [urlparse] also moves the [;]
    parameters of the last path segment out of the path. *)
Lemma normalize_url_identity_counterexample :
  normalize_url any_host (lit "/reg;jsessionid=7?x=1") (lit "https://x.org/courses/")
  = Ok (lit "https://x.org/reg", lit "https://x.org/reg;jsessionid=7?x=1") /\
  lit "https://x.org/reg" <> before_query_fragment (lit "https://x.org/reg;jsessionid=7?x=1").
Proof.
  split.
  - vm_compute. reflexivity.
  - vm_compute. discriminate.
Qed.

(** ** Extraction *)

Section Extraction.
Context {node : Type} {D : Dom node}.
Variable hok : str -> bool.
Variable cfg : config.

Lemma find_title_none ancestors :
  Forall (fun a => dom_select_one a (TITLE_SELECTOR cfg) = Ok None) ancestors ->
  find_title cfg ancestors = Ok None.
Proof. induction 1 as [|a l Ha _ IH]; [done|]. simpl. by rewrite Ha, bind_Ok. Qed.

Lemma find_date_none ancestors :
  Forall (fun a => dom_select_one a (DATE_SELECTOR cfg) = Ok None) ancestors ->
  find_date cfg ancestors = Ok None.
Proof. induction 1 as [|a l Ha _ IH]; [done|]. simpl. by rewrite Ha, bind_Ok. Qed.

Lemma res_bind_Ok_inv {A B} (m : res A) (f : A -> res B) b :
  (m ≫= f) = Ok b -> exists a, m = Ok a /\ f a = Ok b.
Proof. destruct m as [a|e]; simpl; [eauto | discriminate]. Qed.

Lemma extract_event_body_some link base e :
  extract_event_body hok cfg link base = Ok (Some e) ->
  truthy (ev_title e) = true /\ truthy (ev_date e) = true.
Proof.
  unfold extract_event_body. intros Hb.
  apply res_bind_Ok_inv in Hb as (href & _ & Hb).
  destruct (negb (truthy href)); [discriminate|].
  apply res_bind_Ok_inv in Hb as (ids & _ & Hb).
  apply res_bind_Ok_inv in Hb as (ps & _ & Hb).
  apply res_bind_Ok_inv in Hb as (t0 & _ & Hb).
  apply res_bind_Ok_inv in Hb as (title & Ht & Hb).
  apply res_bind_Ok_inv in Hb as (ps' & _ & Hb).
  apply res_bind_Ok_inv in Hb as (d & _ & Hb).
  injection Hb as <-. simpl. split.
  - destruct t0 as [t|].
    + destruct (truthy t) eqn:E.
      * injection Ht as <-. exact E.
      * apply res_bind_Ok_inv in Ht as (txt & _ & Ht). injection Ht as <-.
        by destruct (truthy txt) eqn:E'.
    + apply res_bind_Ok_inv in Ht as (txt & _ & Ht). injection Ht as <-.
      by destruct (truthy txt) eqn:E'.
  - destruct d as [d|]; [|done]. by destruct (truthy d) eqn:E.
Qed.

Lemma collect_events_app ns1 ns2 :
  collect_events hok cfg (ns1 ++ ns2) = collect_events hok cfg ns1 ++ collect_events hok cfg ns2.
Proof.
  induction ns1 as [|n ns1 IH]; [done|]. simpl.
  destruct (extract_event_data hok cfg n (TARGET_URL cfg)); simpl; by rewrite IH.
Qed.

Lemma scrape_events_eq w :
  scrape_events hok cfg w =
  match w_page w with
  | None => Exit 1 w
  | Some soup =>
      match dom_select soup (REG_LINK_SELECTOR cfg) with
      | Raise _ => Exit 1 w
      | Ok nodes =>
          Done (new_events_of (collect_events hok cfg nodes) (seen_of_store (w_state w)),
                seen_of_store (w_state w)) w
      end
  end.
Proof.
  unfold scrape_events, fetch_page, uncaught, load_seen_events.
  cbv [mbind mret prog_bind prog_ret].
  destruct (w_page w) as [soup|]; [|done].
  destruct (dom_select soup (REG_LINK_SELECTOR cfg)); reflexivity.
Qed.

End Extraction.

Lemma new_events_of_spec events seen_ids :
  new_events_of events seen_ids `sublist_of` events /\
  Forall (fun e => ev_id e ∉ seen_ids) (new_events_of events seen_ids) /\
  length (new_events_of events seen_ids)
  + length (List.filter (fun e => bool_decide (ev_id e ∈ seen_ids)) events) = length events.
Proof.
  induction events as [|e es (IHs & IHf & IHl)]; simpl; [split_and!; constructor|].
  unfold new_events_of in *. simpl.
  destruct (bool_decide (ev_id e ∈ seen_ids)) eqn:E; simpl.
  - split_and!; [by constructor | done | lia].
  - apply bool_decide_eq_false in E. split_and!; [by constructor | by constructor | lia].
Qed.

Definition toy_w0 : @world nat :=
  toy_world true (StateJson [lit "https://x.org/reg/a"]) None true true.

(** ** C2 *)

(** C2: [scrape_events] returns the seen-set it loaded, unchanged, and as
    new events exactly the extracted events whose id is not in it, in page
    order: a sub-sequence of the extracted events, none of whose ids is
    seen, as long as the number of extracted events with an unseen id. *)
Theorem scrape_events_new_events {node} {D : Dom node} hok cfg (w w' : world)
    new_events seen_ids :
  scrape_events hok cfg w = Done (new_events, seen_ids) w' ->
  w' = w /\ seen_ids = seen_of_store (w_state w) /\
  exists soup link_elements,
    w_page w = Some soup /\ dom_select soup (REG_LINK_SELECTOR cfg) = Ok link_elements /\
    new_events `sublist_of` collect_events hok cfg link_elements /\
    Forall (fun e => ev_id e ∉ seen_ids) new_events /\
    length new_events
    + length (List.filter (fun e => bool_decide (ev_id e ∈ seen_ids))
                (collect_events hok cfg link_elements))
    = length (collect_events hok cfg link_elements).
Proof.
  rewrite scrape_events_eq. intros Hs.
  destruct (w_page w) as [soup|]; [|discriminate].
  destruct (dom_select soup (REG_LINK_SELECTOR cfg)) as [nodes|e] eqn:Hsel; [|discriminate].
  injection Hs as <- <- <-. split_and!; [done | done |].
  exists soup, nodes. split_and!; try done; apply new_events_of_spec.
Qed.

Lemma scrape_events_new_events_witness :
  exists new_events seen_ids,
  @scrape_events nat (toy_dom toy_page) any_host toy_cfg toy_w0 = Done (new_events, seen_ids) toy_w0 /\
  (toy_w0 = toy_w0 /\ seen_ids = seen_of_store (w_state toy_w0) /\
  exists soup link_elements,
    w_page toy_w0 = Some soup /\
    @dom_select nat (toy_dom toy_page) soup (REG_LINK_SELECTOR toy_cfg) = Ok link_elements /\
    new_events `sublist_of` @collect_events nat (toy_dom toy_page) any_host toy_cfg link_elements /\
    Forall (fun e => ev_id e ∉ seen_ids) new_events /\
    length new_events
    + length (List.filter (fun e => bool_decide (ev_id e ∈ seen_ids))
                (@collect_events nat (toy_dom toy_page) any_host toy_cfg link_elements))
    = length (@collect_events nat (toy_dom toy_page) any_host toy_cfg link_elements)).
Proof.
  do 2 eexists. split.
  - vm_compute. reflexivity.
  - apply (@scrape_events_new_events nat (toy_dom toy_page) any_host toy_cfg toy_w0 toy_w0).
    vm_compute. reflexivity.
Defined.

(** ** C7 *)

(** C7: a link with no [href], or an empty one, gives no event; an exception
    raised while extracting one node gives no event for that node; the
    events of the other nodes are collected all the same; and once the page
    is fetched and the links selected, [scrape_events] always returns. *)
Theorem extract_failures_are_absent {node} {D : Dom node} hok cfg :
  (forall link_element base_url,
     dom_get link_element (lit "href") = Ok None \/
     dom_get link_element (lit "href") = Ok (Some []) ->
     extract_event_data hok cfg link_element base_url = None) /\
  (forall link_element base_url e,
     extract_event_body hok cfg link_element base_url = Raise e ->
     extract_event_data hok cfg link_element base_url = None) /\
  (forall ns1 n ns2,
     extract_event_data hok cfg n (TARGET_URL cfg) = None ->
     collect_events hok cfg (ns1 ++ n :: ns2)
     = collect_events hok cfg ns1 ++ collect_events hok cfg ns2) /\
  (forall w soup link_elements,
     w_page w = Some soup -> dom_select soup (REG_LINK_SELECTOR cfg) = Ok link_elements ->
     scrape_events hok cfg w
     = Done (new_events_of (collect_events hok cfg link_elements) (seen_of_store (w_state w)),
             seen_of_store (w_state w)) w).
Proof.
  split_and!.
  - intros link base Hh. unfold extract_event_data, extract_event_body.
    destruct Hh as [Hh|Hh]; rewrite Hh; reflexivity.
  - intros link base e He. unfold extract_event_data. by rewrite He.
  - intros ns1 n ns2 Hn. rewrite collect_events_app. simpl. by rewrite Hn.
  - intros w soup nodes Hp Hsel. by rewrite scrape_events_eq, Hp, Hsel.
Qed.

Lemma extract_failures_are_absent_witness :
  @extract_event_data nat (toy_dom toy_page) any_host toy_cfg 6 (TARGET_URL toy_cfg) = None /\
  @extract_event_data nat (toy_dom toy_page_bad) any_host toy_cfg 2 (TARGET_URL toy_cfg) = None /\
  @collect_events nat (toy_dom toy_page_bad) any_host toy_cfg ([] ++ 2 :: [])
  = @collect_events nat (toy_dom toy_page_bad) any_host toy_cfg []
    ++ @collect_events nat (toy_dom toy_page_bad) any_host toy_cfg [] /\
  @scrape_events nat (toy_dom toy_page) any_host toy_cfg toy_w0
  = Done (new_events_of (@collect_events nat (toy_dom toy_page) any_host toy_cfg [4; 6; 7])
                        (seen_of_store (w_state toy_w0)),
          seen_of_store (w_state toy_w0)) toy_w0.
Proof.
  pose proof (@extract_failures_are_absent nat (toy_dom toy_page) any_host toy_cfg) as Hok.
  pose proof (@extract_failures_are_absent nat (toy_dom toy_page_bad) any_host toy_cfg) as Hbad.
  split_and!.
  - apply (proj1 Hok). right. vm_compute. reflexivity.
  - apply (proj1 (proj2 Hbad) 2 (TARGET_URL toy_cfg)
             (ValueError (lit "Invalid IPv6 URL"))).
    vm_compute. reflexivity.
  - apply (proj1 (proj2 (proj2 Hbad))). vm_compute. reflexivity.
  - apply (proj2 (proj2 (proj2 Hok)) toy_w0 0); vm_compute; reflexivity.
Defined.

(** ** C5 *)

(** C5 (amended): a link with a non-empty [href] that [normalize_url]
    accepts, whose DOM calls do not raise, and with no title and no date in
    any ancestor, gives an event titled with its text, or
    ["Untitled Event"] when the text is empty, and dated ["Date TBD"]; a
    link with a non-empty [href] that [normalize_url] (that is [urljoin]
    or [urlparse]) rejects gives no event; and every event
    [extract_event_data] returns has a non-empty title and a non-empty
    date. *)
Theorem extract_fallbacks {node} {D : Dom node} hok cfg :
  (forall link_element base_url href ids ancestors txt,
     dom_get link_element (lit "href") = Ok (Some href) -> truthy href = true ->
     normalize_url hok href base_url = Ok ids ->
     dom_parents link_element = Ok ancestors ->
     Forall (fun a => dom_select_one a (TITLE_SELECTOR cfg) = Ok None) ancestors ->
     Forall (fun a => dom_select_one a (DATE_SELECTOR cfg) = Ok None) ancestors ->
     dom_get_text link_element = Ok txt ->
     extract_event_data hok cfg link_element base_url
     = Some (mk_event (fst ids) (snd ids)
               (if truthy txt then txt else lit "Untitled Event") (lit "Date TBD"))) /\
  (forall link_element base_url href err,
     dom_get link_element (lit "href") = Ok (Some href) -> truthy href = true ->
     normalize_url hok href base_url = Raise err ->
     extract_event_data hok cfg link_element base_url = None) /\
  (forall link_element base_url e,
     extract_event_data hok cfg link_element base_url = Some e ->
     truthy (ev_title e) = true /\ truthy (ev_date e) = true).
Proof.
  split; [|split].
  - intros link base href ids ps txt Hh Ht Hn Hp HT HD Hx.
    unfold extract_event_data, extract_event_body.
    rewrite Hh. cbn [res_map default from_option id]. rewrite bind_Ok, Ht. cbn [negb].
    rewrite Hn, bind_Ok, Hp, bind_Ok, (find_title_none _ _ HT), bind_Ok,
      Hx, bind_Ok, bind_Ok, bind_Ok, (find_date_none _ _ HD), bind_Ok.
    reflexivity.
  - intros link base href err Hh Ht Hn.
    unfold extract_event_data, extract_event_body.
    rewrite Hh. cbn [res_map default from_option id]. rewrite bind_Ok, Ht. cbn [negb].
    by rewrite Hn.
  - intros link base e. unfold extract_event_data.
    destruct (extract_event_body hok cfg link base) as [[e'|]|] eqn:Hb; try discriminate.
    intros [= <-]. exact (extract_event_body_some _ _ _ _ _ Hb).
Qed.

Lemma extract_fallbacks_witness :
  @extract_event_data nat (toy_dom toy_page_bad) any_host toy_cfg 3 (TARGET_URL toy_cfg)
  = Some (mk_event (lit "https://x.org/reg/c") (lit "https://x.org/reg/c")
            (if truthy [] then [] else lit "Untitled Event") (lit "Date TBD")) /\
  @extract_event_data nat (toy_dom toy_page_bad) any_host toy_cfg 2 (TARGET_URL toy_cfg) = None /\
  (truthy (lit "Course A & B") = true /\ truthy (lit "2025-03-01") = true).
Proof.
  pose proof (@extract_fallbacks nat (toy_dom toy_page_bad) any_host toy_cfg) as [Hbad [Hraise _]].
  pose proof (@extract_fallbacks nat (toy_dom toy_page) any_host toy_cfg) as [_ [_ Hok]].
  split; [|split].
  - apply (Hbad 3 (TARGET_URL toy_cfg) (lit "/reg/c")
             (lit "https://x.org/reg/c", lit "https://x.org/reg/c") [1; 0] []);
      vm_compute; repeat constructor.
  - apply (Hraise 2 (TARGET_URL toy_cfg) (lit "http://[x/") (ValueError (lit "Invalid IPv6 URL")));
      vm_compute; reflexivity.
  - apply (Hok 4 (TARGET_URL toy_cfg)
             (mk_event (lit "https://x.org/reg/a") (lit "https://x.org/reg/a?sid=1")
                (lit "Course A & B") (lit "2025-03-01"))).
    vm_compute. reflexivity.
Defined.

(** C5, counterexample to the unamended claim: the link [http://[x/] has a
    non-empty [href] and no title or date in its ancestors, but
    [normalize_url] raises [ValueError] on it, and [extract_event_data]
    returns [None]. *)
Lemma extract_fallbacks_counterexample :
  @dom_get nat (toy_dom toy_page_bad) 2 (lit "href") = Ok (Some (lit "http://[x/")) /\
  @dom_parents nat (toy_dom toy_page_bad) 2 = Ok [1; 0] /\
  @dom_select_one nat (toy_dom toy_page_bad) 1 (TITLE_SELECTOR toy_cfg) = Ok None /\
  @dom_select_one nat (toy_dom toy_page_bad) 0 (TITLE_SELECTOR toy_cfg) = Ok None /\
  @dom_select_one nat (toy_dom toy_page_bad) 1 (DATE_SELECTOR toy_cfg) = Ok None /\
  @dom_select_one nat (toy_dom toy_page_bad) 0 (DATE_SELECTOR toy_cfg) = Ok None /\
  normalize_url any_host (lit "http://[x/") (TARGET_URL toy_cfg)
  = Raise (ValueError (lit "Invalid IPv6 URL")) /\
  @extract_event_data nat (toy_dom toy_page_bad) any_host toy_cfg 2 (TARGET_URL toy_cfg) = None.
Proof. split_and!; vm_compute; reflexivity. Qed.

(** ** The steps of a run *)

Section Run.
Context {node : Type}.
Variable cfg : config.

(** The files and the page are as before (only the clock and the webhook
    log may have moved). *)
Definition keeps_files (w w' : @world node) : Prop :=
  w_page w' = w_page w /\ w_state w' = w_state w /\
  w_state_writable w' = w_state_writable w /\ w_feed w' = w_feed w /\
  w_feed_readable w' = w_feed_readable w /\ w_feed_writable w' = w_feed_writable w.

Lemma keeps_files_refl w : keeps_files w w.
Proof. unfold keeps_files. split_and!; reflexivity. Qed.

Lemma keeps_files_trans w1 w2 w3 : keeps_files w1 w2 -> keeps_files w2 w3 -> keeps_files w1 w3.
Proof. unfold keeps_files. intros (?&?&?&?&?&?) (?&?&?&?&?&?). split_and!; congruence. Qed.

Lemma keeps_files_tick w : keeps_files w (tick w).
Proof. unfold keeps_files. split_and!; reflexivity. Qed.

(** The item [generate_rss_item] renders at time [t]. *)
Definition render_item (event : event) (t : datetime) : str :=
  rss_item_text (escape (ev_title event)) (escape (ev_link event))
    (escape (lit "Registration Date: " ++ escape (ev_date event))) (strftime_rfc822 t).

Lemma generate_rss_item_eq e (w : @world node) :
  generate_rss_item e w = Done (render_item e (w_now w (w_tick w))) (tick w).
Proof. reflexivity. Qed.

Lemma generate_items_spec evs (w : @world node) :
  exists ts w', length ts = length evs /\ keeps_files w w' /\
    generate_items evs w = Done (zip_with render_item evs ts) w'.
Proof.
  revert w. induction evs as [|e evs IH]; intros w.
  - exists [], w. split_and!; [done | apply keeps_files_refl | reflexivity].
  - destruct (IH (tick w)) as (ts & w' & Hl & Hk & Hg).
    exists (w_now w (w_tick w) :: ts), w'. split_and!.
    + simpl. by rewrite Hl.
    + exact (keeps_files_trans _ _ _ (keeps_files_tick w) Hk).
    + cbn [generate_items]. cbv [mbind prog_bind mret prog_ret].
      rewrite generate_rss_item_eq, Hg. reflexivity.
Qed.

(** What [update_rss_feed] reads from an existing feed. *)
Definition stored_items (w : @world node) : list str :=
  match w_feed w with
  | Some content => if w_feed_readable w then existing_items_of (universal_newlines content) else []
  | None => []
  end.

Definition feed_of (build : datetime) (all_items : list str) : str :=
  feed_text (escape (lit "EUGLOH Course Events")) (escape (TARGET_URL cfg))
    (escape (lit "New course registration opportunities from EUGLOH"))
    (strftime_rfc822 build) (concat all_items).

Lemma update_rss_feed_spec e evs (w : @world node) :
  exists ts build w', length ts = S (length evs) /\ keeps_files w w' /\
    update_rss_feed cfg (e :: evs) w
    = write_feed (feed_of build (zip_with render_item (rev (e :: evs)) ts ++ stored_items w)) w'.
Proof.
  destruct (generate_items_spec (rev (e :: evs)) w) as (ts & w1 & Hl & Hk & Hg).
  exists ts, (w_now w1 (w_tick w1)), (tick w1). split_and!.
  - rewrite Hl, length_rev. reflexivity.
  - exact (keeps_files_trans _ _ _ Hk (keeps_files_tick w1)).
  - unfold update_rss_feed. cbv [mbind prog_bind mret prog_ret].
    unfold read_existing_items. rewrite Hg. reflexivity.
Qed.

Lemma post_to_webhook_keeps e (w : @world node) :
  exists w', post_to_webhook cfg e w = Done () w' /\ keeps_files w w'.
Proof.
  unfold post_to_webhook. destruct (negb (truthy (WEBHOOK_URL cfg))).
  - exists w. split; [reflexivity | apply keeps_files_refl].
  - exists (add_post e (tick w)). split; [reflexivity|].
    unfold keeps_files. split_and!; reflexivity.
Qed.

Lemma process_events_spec evs seen_ids (w : @world node) :
  exists w', keeps_files w w' /\
    process_events cfg evs seen_ids w = Done (seen_ids ∪ list_to_set (map ev_id evs)) w'.
Proof.
  revert seen_ids w. induction evs as [|e evs IH]; intros seen_ids w.
  - exists w. split; [apply keeps_files_refl|]. simpl. f_equal. set_solver.
  - destruct (post_to_webhook_keeps e w) as (w1 & Hp & Hk1).
    destruct (IH ({[ev_id e]} ∪ seen_ids) w1) as (w2 & Hk2 & Hr).
    exists w2. split; [exact (keeps_files_trans _ _ _ Hk1 Hk2)|].
    cbn [process_events]. cbv [mbind prog_bind mret prog_ret]. rewrite Hp, Hr.
    f_equal. simpl. set_solver.
Qed.

End Run.

(** ** The cases of a run *)

Section Main.
Context {node : Type} {D : Dom node}.
Variable hok : str -> bool.
Variable cfg : config.

Lemma main_unfold (w : @world node) :
  main hok cfg w =
  match scrape_events hok cfg w with
  | Done (new_events, seen_ids) w1 =>
      match new_events with
      | [] => save_seen_events seen_ids w1
      | _ :: _ =>
          match process_events cfg new_events seen_ids w1 with
          | Done seen_ids' w2 =>
              match update_rss_feed cfg new_events w2 with
              | Done _ w3 => save_seen_events seen_ids' w3
              | Exit c w3 => Exit c w3
              end
          | Exit c w2 => Exit c w2
          end
      end
  | Exit c w1 => Exit c w1
  end.
Proof.
  unfold main. cbv [mbind prog_bind mret prog_ret].
  destruct (scrape_events hok cfg w) as [[[|e evs] seen] w1|c w1]; try reflexivity.
Qed.

Lemma main_no_page (w : @world node) : w_page w = None -> main hok cfg w = Exit 1 w.
Proof. intros Hp. by rewrite main_unfold, scrape_events_eq, Hp. Qed.

Lemma main_select_raises (w : @world node) soup e :
  w_page w = Some soup -> dom_select soup (REG_LINK_SELECTOR cfg) = Raise e ->
  main hok cfg w = Exit 1 w.
Proof. intros Hp Hs. by rewrite main_unfold, scrape_events_eq, Hp, Hs. Qed.

Lemma main_no_new (w : @world node) soup nodes :
  w_page w = Some soup -> dom_select soup (REG_LINK_SELECTOR cfg) = Ok nodes ->
  new_events_of (collect_events hok cfg nodes) (seen_of_store (w_state w)) = [] ->
  main hok cfg w = save_seen_events (seen_of_store (w_state w)) w.
Proof. intros Hp Hs Hn. by rewrite main_unfold, scrape_events_eq, Hp, Hs, Hn. Qed.

Lemma main_new (w : @world node) soup nodes e evs :
  w_page w = Some soup -> dom_select soup (REG_LINK_SELECTOR cfg) = Ok nodes ->
  new_events_of (collect_events hok cfg nodes) (seen_of_store (w_state w)) = e :: evs ->
  exists content w2, keeps_files w w2 /\
    main hok cfg w =
    match write_feed content w2 with
    | Done _ w3 =>
        save_seen_events (seen_of_store (w_state w) ∪ list_to_set (map ev_id (e :: evs))) w3
    | Exit c w3 => Exit c w3
    end.
Proof.
  intros Hp Hs Hn. rewrite main_unfold, scrape_events_eq, Hp, Hs, Hn.
  destruct (process_events_spec cfg (e :: evs) (seen_of_store (w_state w)) w)
    as (w1 & Hk1 & Hpr).
  rewrite Hpr.
  destruct (update_rss_feed_spec cfg e evs w1) as (ts & build & w2 & _ & Hk2 & Hu).
  rewrite Hu. eexists _, w2. split; [exact (keeps_files_trans _ _ _ Hk1 Hk2)|].
  reflexivity.
Qed.

(** The outcome of a run that finds the page and its links. *)
Lemma run_main_fetched (w : @world node) soup nodes :
  w_page w = Some soup -> dom_select soup (REG_LINK_SELECTOR cfg) = Ok nodes ->
  let seen_ids := seen_of_store (w_state w) in
  let new_events := new_events_of (collect_events hok cfg nodes) seen_ids in
  exists w',
    run_main hok cfg w
    = (if w_state_writable w && match new_events with [] => true | _ => w_feed_writable w end then 0 else 1, w') /\
    (w_state_writable w && match new_events with [] => true | _ => w_feed_writable w end = true ->
       w_state w' = StateJson (sorted_strs (elements (seen_ids ∪ list_to_set (map ev_id new_events))))) /\
    (new_events = [] -> w_feed w' = w_feed w) /\
    w_page w' = w_page w.
Proof.
  intros Hp Hs seen_ids new_events. unfold run_main.
  destruct new_events as [|e evs] eqn:Hn.
  - rewrite (main_no_new w soup nodes Hp Hs Hn). unfold save_seen_events.
    destruct (w_state_writable w); simpl.
    + eexists. split_and!; [reflexivity | | reflexivity | reflexivity].
      intros _. simpl. do 3 f_equal. set_solver.
    + eexists. split_and!; [reflexivity | discriminate | reflexivity | reflexivity].
  - destruct (main_new w soup nodes e evs Hp Hs Hn) as (content & w2 & Hk & ->).
    destruct Hk as (Hpg & Hst & Hsw & Hf & Hfr & Hfw).
    unfold write_feed. rewrite Hfw. destruct (w_feed_writable w).
    + unfold save_seen_events. simpl. rewrite Hsw.
      destruct (w_state_writable w); simpl.
      * eexists. split_and!; [reflexivity | reflexivity | discriminate | exact Hpg].
      * eexists. split_and!; [reflexivity | discriminate | discriminate | exact Hpg].
    + simpl. rewrite andb_false_r.
      eexists. split_and!; [reflexivity | discriminate | discriminate | exact Hpg].
Qed.

End Main.

Lemma insert_sorted_perm x l : insert_sorted x l ≡ₚ x :: l.
Proof.
  induction l as [|y l IH]; simpl; [done|].
  destruct (str_ltb y x); [|done]. rewrite IH. apply Permutation_swap.
Qed.

Lemma sorted_strs_perm l : sorted_strs l ≡ₚ l.
Proof. induction l as [|x l IH]; simpl; [done|]. by rewrite insert_sorted_perm, IH. Qed.

(** Loading what [save_seen_events] wrote gives the same set back. *)
Lemma seen_of_store_saved (X : gset str) :
  seen_of_store (StateJson (sorted_strs (elements X))) = X.
Proof.
  simpl. apply set_eq. intros x.
  rewrite elem_of_list_to_set, (sorted_strs_perm (elements X)). apply elem_of_elements.
Qed.

Lemma new_events_of_all_seen (events : list event) (X : gset str) :
  (forall e, e ∈ events -> ev_id e ∈ X) -> new_events_of events X = [].
Proof.
  induction events as [|e es IH]; intros Hall; [done|].
  unfold new_events_of. simpl.
  rewrite bool_decide_true by (apply Hall; left). simpl. apply IH.
  intros e' He'. apply Hall. by right.
Qed.

Lemma new_events_of_elem (e : event) (events : list event) (X : gset str) :
  e ∈ events -> ev_id e ∉ X -> e ∈ new_events_of events X.
Proof.
  induction events as [|e' es IH]; intros He Hx; [inversion He|].
  unfold new_events_of. simpl.
  apply elem_of_cons in He as [->|He].
  - rewrite bool_decide_false by done. simpl. left.
  - destruct (bool_decide (ev_id e' ∈ X)); simpl; [|right]; by apply IH.
Qed.

Lemma run_main_ok {node} {D : Dom node} hok cfg (w w' : @world node) :
  run_main hok cfg w = (0, w') ->
  exists soup nodes,
    w_page w = Some soup /\ dom_select soup (REG_LINK_SELECTOR cfg) = Ok nodes /\
    let seen_ids := seen_of_store (w_state w) in
    let new_events := new_events_of (collect_events hok cfg nodes) seen_ids in
    w_state w' = StateJson (sorted_strs (elements (seen_ids ∪ list_to_set (map ev_id new_events)))) /\
    (new_events = [] -> w_feed w' = w_feed w) /\ w_page w' = w_page w.
Proof.
  intros Hr. destruct (w_page w) as [soup|] eqn:Hp.
  2:{ unfold run_main in Hr. by rewrite (main_no_page hok cfg w Hp) in Hr. }
  destruct (dom_select soup (REG_LINK_SELECTOR cfg)) as [nodes|e] eqn:Hs.
  2:{ unfold run_main in Hr. by rewrite (main_select_raises hok cfg w soup e Hp Hs) in Hr. }
  exists soup, nodes. split_and!; [done | done |].
  destruct (run_main_fetched hok cfg w soup nodes Hp Hs) as (w'' & Hr' & Hst & Hf & Hpg).
  rewrite Hr in Hr'. simpl in Hst, Hf.
  destruct (_ && _); [|discriminate]. injection Hr' as <-.
  split_and!; [by apply Hst | exact Hf | by rewrite Hpg].
Qed.

(** ** C4 *)

(** C4: after a run that exits with status 0, the state file holds a JSON
    list, and the set it stands for contains the set loaded at the start. *)
Theorem seen_set_grows {node} {D : Dom node} hok cfg (w w' : @world node) :
  run_main hok cfg w = (0, w') ->
  exists l, w_state w' = StateJson l /\
    seen_of_store (w_state w) ⊆ seen_of_store (w_state w').
Proof.
  intros Hr. destruct (run_main_ok hok cfg w w' Hr) as (soup & nodes & _ & _ & Hst & _).
  eexists. split; [exact Hst|]. rewrite Hst, seen_of_store_saved. set_solver.
Qed.

Lemma seen_set_grows_witness :
  exists l, w_state (snd (@run_main nat (toy_dom toy_page) any_host toy_cfg toy_w0)) = StateJson l /\
    seen_of_store (w_state toy_w0)
    ⊆ seen_of_store (w_state (snd (@run_main nat (toy_dom toy_page) any_host toy_cfg toy_w0))).
Proof.
  apply (@seen_set_grows nat (toy_dom toy_page) any_host toy_cfg).
  vm_compute. reflexivity.
Defined.

(** ** C3 *)

(** C3: after a run that exits with status 0, a second run on the same page
    with the state file the first run left finds no new event. *)
Theorem second_run_finds_nothing {node} {D : Dom node} hok cfg (w w' w2 : @world node) :
  run_main hok cfg w = (0, w') ->
  w_page w2 = w_page w -> w_state w2 = w_state w' ->
  exists seen_ids, scrape_events hok cfg w2 = Done ([], seen_ids) w2.
Proof.
  intros Hr Hp2 Hs2.
  destruct (run_main_ok hok cfg w w' Hr) as (soup & nodes & Hp & Hsel & Hst & _).
  rewrite scrape_events_eq, Hp2, Hp, Hsel, Hs2, Hst, seen_of_store_saved.
  eexists. f_equal. f_equal. apply new_events_of_all_seen.
  intros e He. destruct (decide (ev_id e ∈ seen_of_store (w_state w))) as [Hin|Hout].
  - set_solver.
  - apply elem_of_union_r, elem_of_list_to_set, list_elem_of_In, in_map, list_elem_of_In.
    by apply new_events_of_elem.
Qed.

Definition toy_w0_after : @world nat :=
  set_state (w_state (snd (@run_main nat (toy_dom toy_page) any_host toy_cfg toy_w0))) toy_w0.

Lemma second_run_finds_nothing_witness :
  exists seen_ids,
    @scrape_events nat (toy_dom toy_page) any_host toy_cfg toy_w0_after
    = Done ([], seen_ids) toy_w0_after.
Proof.
  apply (@second_run_finds_nothing nat (toy_dom toy_page) any_host toy_cfg toy_w0
           (snd (@run_main nat (toy_dom toy_page) any_host toy_cfg toy_w0)));
    vm_compute; reflexivity.
Defined.

(** ** C8 *)

(** C8: a run whose state file cannot be written exits with status 1; so
    does a run that finds new events and cannot write the feed; a run that
    fetches the page and selects its links exits with status 0 when it
    finds no new event and can write the state file, or when it can write
    both files. *)
Theorem run_exit_status {node} {D : Dom node} hok cfg :
  (forall w : @world node, w_state_writable w = false -> fst (run_main hok cfg w) = 1) /\
  (forall (w : @world node) soup link_elements,
     w_page w = Some soup -> dom_select soup (REG_LINK_SELECTOR cfg) = Ok link_elements ->
     new_events_of (collect_events hok cfg link_elements) (seen_of_store (w_state w)) <> [] ->
     w_feed_writable w = false -> fst (run_main hok cfg w) = 1) /\
  (forall (w : @world node) soup link_elements,
     w_page w = Some soup -> dom_select soup (REG_LINK_SELECTOR cfg) = Ok link_elements ->
     new_events_of (collect_events hok cfg link_elements) (seen_of_store (w_state w)) = [] ->
     w_state_writable w = true -> fst (run_main hok cfg w) = 0) /\
  (forall (w : @world node) soup link_elements,
     w_page w = Some soup -> dom_select soup (REG_LINK_SELECTOR cfg) = Ok link_elements ->
     w_state_writable w = true -> w_feed_writable w = true -> fst (run_main hok cfg w) = 0).
Proof.
  split_and!.
  - intros w Hsw. destruct (w_page w) as [soup|] eqn:Hp.
    2:{ unfold run_main. by rewrite (main_no_page hok cfg w Hp). }
    destruct (dom_select soup (REG_LINK_SELECTOR cfg)) as [nodes|e] eqn:Hs.
    2:{ unfold run_main. by rewrite (main_select_raises hok cfg w soup e Hp Hs). }
    destruct (run_main_fetched hok cfg w soup nodes Hp Hs) as (w' & -> & _).
    by rewrite Hsw.
  - intros w soup nodes Hp Hs Hn Hfw.
    destruct (run_main_fetched hok cfg w soup nodes Hp Hs) as (w' & -> & _).
    simpl. destruct (new_events_of _ _); [done|]. by rewrite Hfw, andb_false_r.
  - intros w soup nodes Hp Hs Hn Hsw.
    destruct (run_main_fetched hok cfg w soup nodes Hp Hs) as (w' & -> & _).
    simpl. by rewrite Hn, Hsw.
  - intros w soup nodes Hp Hs Hsw Hfw.
    destruct (run_main_fetched hok cfg w soup nodes Hp Hs) as (w' & -> & _).
    simpl. rewrite Hsw, Hfw. by destruct (new_events_of _ _).
Qed.

Lemma run_exit_status_witness :
  fst (@run_main nat (toy_dom toy_page) any_host toy_cfg (toy_world true StateMissing None false true)) = 1 /\
  fst (@run_main nat (toy_dom toy_page) any_host toy_cfg (toy_world true StateMissing None true false)) = 1 /\
  fst (@run_main nat (toy_dom toy_page) any_host toy_cfg
         (toy_world true (StateJson [lit "https://x.org/reg/a"; lit "https://x.org/reg/b"])
            None true false)) = 0 /\
  fst (@run_main nat (toy_dom toy_page) any_host toy_cfg (toy_world true StateMissing None true true)) = 0.
Proof.
  pose proof (@run_exit_status nat (toy_dom toy_page) any_host toy_cfg) as (H1 & H2 & H3 & H4).
  split_and!.
  - apply H1. vm_compute. reflexivity.
  - apply (H2 _ 0 [4; 6; 7]); vm_compute; [reflexivity | reflexivity | discriminate | reflexivity].
  - apply (H3 _ 0 [4; 6; 7]); vm_compute; reflexivity.
  - apply (H4 _ 0 [4; 6; 7]); vm_compute; reflexivity.
Defined.

(** ** C9 *)

(** C9: [update_rss_feed] on no events changes nothing; a run that finds
    no new event leaves the feed file as it was, whatever its exit status;
    and a run that exits with status 0 leaves a state file holding a JSON
    list. *)
Theorem empty_run_keeps_feed {node} {D : Dom node} hok cfg :
  (forall w : @world node, update_rss_feed cfg [] w = Done () w) /\
  (forall (w w' : @world node) code soup link_elements,
     w_page w = Some soup -> dom_select soup (REG_LINK_SELECTOR cfg) = Ok link_elements ->
     new_events_of (collect_events hok cfg link_elements) (seen_of_store (w_state w)) = [] ->
     run_main hok cfg w = (code, w') -> w_feed w' = w_feed w) /\
  (forall w w' : @world node, run_main hok cfg w = (0, w') -> exists l, w_state w' = StateJson l).
Proof.
  split_and!.
  - intros w. reflexivity.
  - intros w w' code soup nodes Hp Hs Hn Hr.
    destruct (run_main_fetched hok cfg w soup nodes Hp Hs) as (w'' & Hr' & _ & Hf & _).
    rewrite Hr in Hr'. injection Hr' as _ <-. by apply Hf.
  - intros w w' Hr. destruct (run_main_ok hok cfg w w' Hr) as (soup & nodes & _ & _ & Hst & _).
    eexists. exact Hst.
Qed.

Definition toy_w_seen : @world nat :=
  toy_world true (StateJson [lit "https://x.org/reg/a"; lit "https://x.org/reg/b"])
    (Some (lit "old feed")) false true.

Lemma empty_run_keeps_feed_witness :
  w_feed (snd (@run_main nat (toy_dom toy_page) any_host toy_cfg toy_w_seen)) = w_feed toy_w_seen /\
  exists l, w_state (snd (@run_main nat (toy_dom toy_page) any_host toy_cfg toy_w0)) = StateJson l.
Proof.
  pose proof (@empty_run_keeps_feed nat (toy_dom toy_page) any_host toy_cfg) as (_ & H2 & H3).
  split.
  - apply (H2 _ _ (fst (@run_main nat (toy_dom toy_page) any_host toy_cfg toy_w_seen)) 0 [4; 6; 7]);
      vm_compute; reflexivity.
  - apply (H3 toy_w0). vm_compute. reflexivity.
Defined.

(** ** Reading back a written feed *)

(** [compat sep t]: [t] and [sep] agree on their common length, so [t]
    followed by suitable text starts with [sep]. *)
Fixpoint compat (sep t : str) : bool :=
  match sep, t with
  | [], _ => true
  | _, [] => true
  | a :: sep', b :: t' => Ascii.eqb a b && compat sep' t'
  end.

(** No match of [sep] starts inside [x], whatever follows [x]. *)
Fixpoint clean (sep x : str) : bool :=
  match x with
  | [] => true
  | _ :: x' => negb (compat sep x) && clean sep x'
  end.

Definition lt_free (x : str) : Prop := mem_char "<" x = false.

Fixpoint ends_with_cr (x : str) : bool :=
  match x with
  | [] => false
  | [c] => Ascii.eqb c (chr 13)
  | _ :: x' => ends_with_cr x'
  end.

(** The text of a list of [(prefix, body)] pairs, each body wrapped in an
    item element. *)
Fixpoint wrap_items (l : list (str * str)) : str :=
  match l with
  | [] => []
  | (p, b) :: l' => p ++ lit "<item>" ++ b ++ lit "</item>" ++ wrap_items l'
  end.

(** The parts [split('</item>')] makes of [h ++ wrap_items l ++ t]. *)
Fixpoint parts_of (h : str) (l : list (str * str)) (t : str) : list str :=
  match l with
  | [] => [h ++ t]
  | (p, b) :: l' => (h ++ p ++ lit "<item>" ++ b) :: parts_of [] l' t
  end.

Definition entry_of (body : str) : str := lit "<item>" ++ body ++ lit "</item>".

(** The text of an item between its [<item>] and [</item>] tags. *)
Definition item_body (title link description pub_date : str) : str :=
  nl ++ lit "    <title>" ++ title ++ lit "</title>" ++ nl
  ++ lit "    <link>" ++ link ++ lit "</link>" ++ nl
  ++ lit "    <description>" ++ description ++ lit "</description>" ++ nl
  ++ lit "    <pubDate>" ++ pub_date ++ lit "</pubDate>" ++ nl
  ++ lit "    <guid isPermaLink=" ++ [quote] ++ lit "true" ++ [quote] ++ lit ">"
  ++ link ++ lit "</guid>" ++ nl ++ lit "  ".

Definition render_body (event : event) (t : datetime) : str :=
  item_body (escape (ev_title event)) (escape (ev_link event))
    (escape (lit "Registration Date: " ++ escape (ev_date event))) (strftime_rfc822 t).

(** The entries [update_rss_feed] reads back from a feed text [content]
    (the file is read in text mode), and the entry it reads back for an
    event published at time [t]. *)
Definition feed_entries (content : str) : list str :=
  existing_items_of (universal_newlines content).

Definition rss_entry (event : event) (t : datetime) : str :=
  entry_of (universal_newlines (render_body event t)).

Section Feed_parse.

Lemma compat_app sep t r : compat sep (t ++ r) = true -> compat sep t = true.
Proof.
  revert sep. induction t as [|c t IH]; intros [|a sep]; simpl; try done.
  intros [-> H]%andb_prop. simpl. by apply IH.
Qed.

Lemma startswith_compat sep s : startswith sep s = true -> compat sep s = true.
Proof.
  revert s. induction sep as [|a sep IH]; intros [|b s]; simpl; try done.
  intros [-> H]%andb_prop. simpl. by apply IH.
Qed.

Lemma startswith_self sep r : startswith sep (sep ++ r) = true.
Proof. induction sep as [|a sep IH]; simpl; [done|]. by rewrite Ascii.eqb_refl, IH. Qed.

Lemma clean_app sep x y : clean sep x = true -> clean sep y = true -> clean sep (x ++ y) = true.
Proof.
  induction x as [|c x IH]; simpl; [done|].
  intros [H1 H2]%andb_prop Hy. apply andb_true_intro. split; [|by apply IH].
  destruct (compat sep (c :: x ++ y)) eqn:E; [|done].
  apply (compat_app sep (c :: x) y) in E. by rewrite E in H1.
Qed.

Lemma clean_suffix sep c x : clean sep (c :: x) = true -> clean sep x = true.
Proof. simpl. by intros [_ ?]%andb_prop. Qed.

Lemma lt_free_clean sep x : hd_error sep = Some "<"%char -> lt_free x -> clean sep x = true.
Proof.
  unfold lt_free. destruct sep as [|a sep]; [done|]. intros [= ->].
  induction x as [|c x IH]; simpl; [done|].
  unfold mem_char. simpl. intros [H1 H2]%orb_false_elim.
  rewrite H1. simpl. by apply IH.
Qed.

Lemma lt_free_app x y : lt_free x -> lt_free y -> lt_free (x ++ y).
Proof. unfold lt_free. rewrite mem_char_app. by intros -> ->. Qed.

Lemma split_go_clean sep x s cur :
  clean sep x = true -> split_go sep (x ++ s) cur 0 = split_go sep s (rev x ++ cur) 0.
Proof.
  revert cur. induction x as [|c x IH]; intros cur; simpl; [done|].
  intros [H1 H2]%andb_prop.
  destruct (startswith sep (c :: x ++ s)) eqn:E.
  - apply startswith_compat, (compat_app sep (c :: x) s) in E. by rewrite E in H1.
  - rewrite IH by done. by rewrite <- app_assoc.
Qed.

Lemma split_go_skip sep z y cur : split_go sep (z ++ y) cur (length z) = split_go sep y cur 0.
Proof. induction z as [|c z IH]; simpl; [done|]. exact IH. Qed.

Lemma split_go_sep sep y cur :
  sep <> [] -> split_go sep (sep ++ y) cur 0 = rev cur :: split_go sep y [] 0.
Proof.
  destruct sep as [|c sep]; [done|]. intros _.
  pose proof (startswith_self (c :: sep) y) as Hs. simpl in *. rewrite Hs.
  f_equal. apply split_go_skip.
Qed.

Lemma close_ne : lit "</item>" <> [].
Proof. done. Qed.

Lemma split_wrap l h t cur :
  clean (lit "</item>") h = true -> clean (lit "</item>") t = true ->
  Forall (fun pb => clean (lit "</item>") pb.1 = true /\ clean (lit "</item>") pb.2 = true) l ->
  split_go (lit "</item>") (h ++ wrap_items l ++ t) cur 0 = parts_of (rev cur ++ h) l t.
Proof.
  revert h cur. induction l as [|[p b] l IH]; intros h cur Hh Ht Hl; cbn [wrap_items parts_of app].
  - rewrite <- (app_nil_r (h ++ t)), split_go_clean by (by apply clean_app).
    simpl. by rewrite rev_app_distr, rev_involutive, <- app_assoc.
  - apply Forall_cons in Hl as [[Hp Hb] Hl]. simpl in Hp, Hb.
    assert (E : h ++ (p ++ lit "<item>" ++ b ++ lit "</item>" ++ wrap_items l) ++ t
                = (h ++ p ++ lit "<item>" ++ b) ++ lit "</item>" ++ (wrap_items l ++ t)).
    { by rewrite <- !app_assoc. }
    rewrite E, split_go_clean.
    + rewrite split_go_sep by done.
      pose proof (IH [] [] eq_refl Ht Hl) as IH'. cbn [app rev] in IH'.
      rewrite IH', rev_app_distr, rev_involutive. by rewrite <- !app_assoc.
    + repeat apply clean_app; done.
Qed.

Lemma find_sub_start sub s : startswith sub s = true -> find_sub sub s = Some 0.
Proof. destruct s; simpl; by intros ->. Qed.

Lemma find_sub_clean sub x s :
  clean sub x = true -> find_sub sub (x ++ s) = option_map (Nat.add (length x)) (find_sub sub s).
Proof.
  induction x as [|c x IH]; simpl; intros H.
  - by destruct (find_sub sub s).
  - apply andb_prop in H as [H1 H2].
    destruct (startswith sub (c :: x ++ s)) eqn:E.
    + apply startswith_compat, (compat_app sub (c :: x) s) in E. by rewrite E in H1.
    + rewrite IH by done. by destruct (find_sub sub s).
Qed.

Lemma removelast_cons2 {A} (a : A) l : l <> [] -> removelast (a :: l) = a :: removelast l.
Proof. by destruct l. Qed.

Lemma parts_of_ne h l t : parts_of h l t <> [].
Proof. by destruct l as [|[]]. Qed.

Lemma items_of_parts_wrap l h t :
  clean (lit "<item>") h = true ->
  Forall (fun pb => clean (lit "<item>") pb.1 = true) l ->
  items_of_parts (removelast (parts_of h l t)) = map (fun pb => entry_of pb.2) l.
Proof.
  revert h. induction l as [|[p b] l IH]; intros h Hh Hl; [done|].
  apply Forall_cons in Hl as [Hp Hl]. simpl in Hp.
  cbn [parts_of]. rewrite removelast_cons2 by apply parts_of_ne.
  cbn [items_of_parts].
  rewrite app_assoc, find_sub_clean, find_sub_start by (done || by apply clean_app).
  simpl. rewrite Nat.add_0_r, drop_app_length, (IH []) by done.
  reflexivity.
Qed.

Definition no_nl (sep : str) : Prop := mem_char (chr 13) sep = false /\ mem_char (chr 10) sep = false.

Lemma ends_with_cr_cons c x : ends_with_cr (c :: x) = false -> ends_with_cr x = false.
Proof. by destruct x. Qed.

Lemma ends_with_cr_app x y :
  ends_with_cr x = false -> ends_with_cr y = false -> ends_with_cr (x ++ y) = false.
Proof.
  induction x as [|c x IH]; intros Hx Hy; [exact Hy|].
  destruct x as [|d x].
  - destruct y; [exact Hx | exact Hy].
  - exact (IH Hx Hy).
Qed.

Lemma univ_app x y :
  ends_with_cr x = false -> universal_newlines (x ++ y) = universal_newlines x ++ universal_newlines y.
Proof.
  enough (H : forall n x, length x <= n -> ends_with_cr x = false ->
            universal_newlines (x ++ y) = universal_newlines x ++ universal_newlines y)
    by (intros; by eapply H).
  induction n as [|n IH]; intros [|c x'] Hl Hx; simpl in Hl; try done; try lia.
  cbn [app universal_newlines]. destruct (Ascii.eqb c (chr 13)) eqn:Ec.
  - destruct x' as [|d x''].
    + simpl in Hx. by rewrite Ec in Hx.
    + cbn [app]. apply ends_with_cr_cons in Hx as Hx'.
      destruct (Ascii.eqb d (chr 10)).
      * rewrite IH; [done | simpl in Hl; lia | by apply ends_with_cr_cons in Hx'].
      * rewrite (IH (d :: x'') ltac:(simpl in *; lia) Hx' : universal_newlines (d :: x'' ++ y) = _). done.
  - rewrite IH; [done | lia | by apply ends_with_cr_cons in Hx].
Qed.

Lemma univ_no_cr x : mem_char (chr 13) x = false -> universal_newlines x = x.
Proof.
  induction x as [|c x IH]; [done|]. unfold mem_char. cbn [existsb universal_newlines].
  intros [H1 H2]%orb_false_elim. rewrite Ascii.eqb_sym, H1. f_equal. by apply IH.
Qed.

Lemma univ_out_no_cr x : mem_char (chr 13) (universal_newlines x) = false.
Proof.
  enough (H : forall n x, length x <= n -> mem_char (chr 13) (universal_newlines x) = false)
    by (by eapply H).
  induction n as [|n IH]; intros [|c x'] Hl; simpl in Hl; try done; try lia.
  cbn [universal_newlines]. destruct (Ascii.eqb c (chr 13)) eqn:Ec.
  - rewrite mem_char_cons_ne by done.
    destruct x' as [|d x'']; [done|]. simpl in Hl.
    destruct (Ascii.eqb d (chr 10)); apply IH; simpl; lia.
  - rewrite mem_char_cons_ne; [apply IH; lia|]. intros E. rewrite <- E, Ascii.eqb_refl in Ec. discriminate.
Qed.

Lemma compat_univ sep x : no_nl sep -> compat sep (universal_newlines x) = compat sep x.
Proof.
  revert sep. induction x as [|c x IH]; intros sep [Hr Hn]; [done|].
  destruct sep as [|a sep]; [by destruct (universal_newlines (c :: x))|].
  unfold mem_char in Hr, Hn. cbn [existsb] in Hr, Hn.
  apply orb_false_elim in Hr as [Hr1 Hr2]. apply orb_false_elim in Hn as [Hn1 Hn2].
  cbn [universal_newlines]. destruct (Ascii.eqb c (chr 13)) eqn:Ec.
  - apply Ascii.eqb_eq in Ec as ->. cbn [compat].
    rewrite Ascii.eqb_sym, Hn1, Ascii.eqb_sym, Hr1. reflexivity.
  - cbn [compat]. rewrite IH; [done|]. by split.
Qed.

Lemma clean_univ sep x : no_nl sep -> clean sep x = true -> clean sep (universal_newlines x) = true.
Proof.
  intros Hs.
  enough (H : forall n x, length x <= n -> clean sep x = true ->
            clean sep (universal_newlines x) = true) by (intros; by eapply H).
  induction n as [|n IH]; intros [|c x'] Hl Hx; simpl in Hl; try done; try lia.
  pose proof (compat_univ sep (c :: x') Hs) as Hc.
  cbn [clean] in Hx. apply andb_prop in Hx as [Hx1 Hx2].
  cbn [universal_newlines] in *. destruct (Ascii.eqb c (chr 13)) eqn:Ec.
  - destruct x' as [|d x''].
    + cbn [clean]. by rewrite Hc, Hx1.
    + cbn [clean]. rewrite Hc, Hx1. cbn [negb andb]. simpl in Hl.
      destruct (Ascii.eqb d (chr 10)); apply IH; simpl; try lia; try done.
      by apply clean_suffix in Hx2.
  - cbn [clean]. rewrite Hc, Hx1. cbn [negb andb]. apply IH; [lia | done].
Qed.

Lemma replace_char_lt_free r x : lt_free r -> lt_free (replace_char "<" r x).
Proof.
  intros Hr. induction x as [|d x IH]; [done|]. cbn [replace_char].
  destruct (Ascii.eqb "<" d) eqn:E; [by apply lt_free_app|].
  unfold lt_free, mem_char in *. cbn [existsb]. by rewrite E, IH.
Qed.

Lemma escape_lt_free x : lt_free (escape x).
Proof. apply replace_char_lt_free. reflexivity. Qed.

Lemma digit_lt_free n acc : lt_free acc -> lt_free (ascii_of_nat (48 + n mod 10) :: acc).
Proof.
  unfold lt_free, mem_char. intros H. cbn [existsb]. rewrite H, orb_false_r.
  destruct (Ascii.eqb "<" _) eqn:E; [|done].
  apply Ascii.eqb_eq, (f_equal nat_of_ascii) in E.
  pose proof (Nat.mod_upper_bound n 10) as Hm.
  rewrite nat_ascii_embedding in E by lia. change (nat_of_ascii "<") with 60 in E. lia.
Qed.

Lemma digits_go_lt_free f n acc : lt_free acc -> lt_free (digits_go f n acc).
Proof.
  revert n acc. induction f as [|f IH]; intros n acc H; [done|]. cbn [digits_go].
  destruct (Nat.ltb n 10); [|apply IH]; by apply digit_lt_free.
Qed.

Lemma digits_lt_free n : lt_free (digits n).
Proof. by apply digits_go_lt_free. Qed.

Lemma pad2_lt_free n : lt_free (pad2 n).
Proof.
  unfold pad2. destruct (Nat.ltb n 10); [|apply digits_lt_free].
  apply (lt_free_app ["0"%char]); [reflexivity | apply digits_lt_free].
Qed.

Lemma weekday_abbr_lt_free d : lt_free (weekday_abbr d).
Proof. unfold weekday_abbr. do 7 (destruct d as [|d]; [reflexivity|]). by destruct d. Qed.

Lemma month_abbr_lt_free m : lt_free (month_abbr m).
Proof.
  unfold month_abbr. destruct m as [|m]; [reflexivity|]. cbn [pred].
  do 12 (destruct m as [|m]; [reflexivity|]). by destruct m.
Qed.

Lemma strftime_lt_free t : lt_free (strftime_rfc822 t).
Proof.
  unfold strftime_rfc822.
  repeat apply lt_free_app;
    first [reflexivity | apply weekday_abbr_lt_free | apply pad2_lt_free
          | apply month_abbr_lt_free | apply digits_lt_free].
Qed.

Ltac solve_clean :=
  repeat apply clean_app;
  first [reflexivity
        | apply lt_free_clean;
          [reflexivity
          | first [apply escape_lt_free | apply strftime_lt_free | apply weekday_abbr_lt_free
                  | apply pad2_lt_free | apply month_abbr_lt_free | apply digits_lt_free]]].

Lemma render_body_clean e t : clean (lit "</item>") (render_body e t) = true.
Proof. unfold render_body, item_body. solve_clean. Qed.

Lemma rss_item_text_eq a b c d :
  rss_item_text a b c d = lit "  " ++ entry_of (item_body a b c d).
Proof. unfold rss_item_text, entry_of, item_body. rewrite <- !app_assoc. reflexivity. Qed.

Lemma render_item_eq e t : render_item e t = lit "  " ++ entry_of (render_body e t).
Proof. apply rss_item_text_eq. Qed.

Lemma ends_with_cr_app_r x y : y <> [] -> ends_with_cr (x ++ y) = ends_with_cr y.
Proof.
  intros Hy. induction x as [|c x IH]; [done|]. rewrite <- IH.
  destruct x as [|d x]; [by destruct y|]. reflexivity.
Qed.

Lemma no_cr_ends x : mem_char (chr 13) x = false -> ends_with_cr x = false.
Proof.
  induction x as [|c x IH]; [done|]. unfold mem_char. cbn [existsb].
  intros [H1 H2]%orb_false_elim. destruct x as [|d x].
  - cbn. by rewrite Ascii.eqb_sym.
  - exact (IH H2).
Qed.

Lemma render_body_ends e t : ends_with_cr (render_body e t) = false.
Proof. unfold render_body, item_body. rewrite !app_assoc, ends_with_cr_app_r by done. reflexivity. Qed.

Lemma no_nl_close : no_nl (lit "</item>").
Proof. split; reflexivity. Qed.

Lemma no_nl_open : no_nl (lit "<item>").
Proof. split; reflexivity. Qed.

Lemma Forall_zip_with_intro {A B C} (P : C -> Prop) (f : A -> B -> C) l k :
  (forall a b, P (f a b)) -> Forall P (zip_with f l k).
Proof. intros H. revert k. induction l as [|a l IH]; intros [|b k]; constructor; auto. Qed.

Lemma wrap_items_app l1 l2 : wrap_items (l1 ++ l2) = wrap_items l1 ++ wrap_items l2.
Proof.
  induction l1 as [|[p b] l1 IH]; [done|]. cbn [app wrap_items]. rewrite IH.
  by rewrite <- !app_assoc.
Qed.

Lemma concat_render evs ts :
  concat (zip_with render_item evs ts)
  = wrap_items (zip_with (fun e t => (lit "  ", render_body e t)) evs ts).
Proof.
  revert ts. induction evs as [|e evs IH]; intros [|t ts]; try done.
  cbn [zip_with concat wrap_items]. rewrite IH, render_item_eq. unfold entry_of.
  by rewrite <- !app_assoc.
Qed.

Lemma concat_entries bs : concat (map entry_of bs) = wrap_items (map (fun b : str => ([] : str, b)) bs).
Proof.
  induction bs as [|b bs IH]; [done|]. cbn [map concat wrap_items]. rewrite IH.
  unfold entry_of. by rewrite <- !app_assoc.
Qed.

Lemma wrap_ends l : ends_with_cr (wrap_items l) = false.
Proof.
  induction l as [|[p b] l IH]; [done|]. cbn [wrap_items].
  rewrite !app_assoc. apply ends_with_cr_app; [|exact IH].
  rewrite ends_with_cr_app_r by done. reflexivity.
Qed.

Lemma univ_wrap l :
  Forall (fun pb => mem_char (chr 13) pb.1 = false /\ ends_with_cr pb.2 = false) l ->
  universal_newlines (wrap_items l)
  = wrap_items (map (fun pb => (pb.1, universal_newlines pb.2)) l).
Proof.
  induction l as [|[p b] l IH]; intros Hl; [done|].
  apply Forall_cons in Hl as [[Hp Hb] Hl]. cbn [wrap_items map fst snd] in *.
  rewrite univ_app, (univ_no_cr p) by first [done | by apply no_cr_ends].
  rewrite (univ_app (lit "<item>")), (univ_app b), (univ_app (lit "</item>")) by first [done | reflexivity].
  rewrite IH by done.
  rewrite (univ_no_cr (lit "<item>")), (univ_no_cr (lit "</item>")) by reflexivity.
  reflexivity.
Qed.

Lemma feed_header_clean sep a b c t :
  sep = lit "</item>" \/ sep = lit "<item>" ->
  clean sep (feed_header (escape a) (escape b) (escape c) (strftime_rfc822 t)) = true.
Proof. intros [-> | ->]; unfold feed_header; solve_clean. Qed.

Lemma feed_header_ends a b c d : ends_with_cr (feed_header a b c d) = false.
Proof. unfold feed_header. rewrite !app_assoc, ends_with_cr_app_r by done. reflexivity. Qed.

Lemma map_entries_render evs ts :
  map (fun pb => entry_of pb.2)
    (map (fun pb => (pb.1, universal_newlines pb.2))
       (zip_with (fun e t => (lit "  ", render_body e t)) evs ts))
  = zip_with rss_entry evs ts.
Proof.
  revert ts. induction evs as [|e evs IH]; intros [|t ts]; try done.
  cbn [zip_with map]. by rewrite IH.
Qed.

Lemma map_entries_old bs :
  Forall (fun b => clean (lit "</item>") b = true /\ mem_char (chr 13) b = false) bs ->
  map (fun pb => entry_of pb.2)
    (map (fun pb => (pb.1, universal_newlines pb.2)) (map (fun b : str => ([] : str, b)) bs))
  = map entry_of bs.
Proof.
  induction bs as [|b bs IH]; intros Hbs; [done|].
  apply Forall_cons in Hbs as [[_ Hb] Hbs]. cbn [map fst snd].
  by rewrite univ_no_cr, IH.
Qed.

(** Reading back the feed [update_rss_feed] writes gives the new entries,
    then the entries read before. *)
Lemma feed_entries_feed_of cfg build evs ts bs :
  Forall (fun b => clean (lit "</item>") b = true /\ mem_char (chr 13) b = false) bs ->
  feed_entries (feed_of cfg build (zip_with render_item evs ts ++ map entry_of bs))
  = zip_with rss_entry evs ts ++ map entry_of bs.
Proof.
  intros Hbs.
  set (L := zip_with (fun e t => (lit "  ", render_body e t)) evs ts ++ map (fun b : str => ([] : str, b)) bs).
  assert (Hc : concat (zip_with render_item evs ts ++ map entry_of bs) = wrap_items L).
  { unfold L. by rewrite concat_app, concat_render, concat_entries, wrap_items_app. }
  assert (HL : Forall (fun pb => mem_char (chr 13) pb.1 = false /\ ends_with_cr pb.2 = false) L).
  { unfold L. apply Forall_app; split.
    - apply Forall_zip_with_intro. intros e t. split; [reflexivity | apply render_body_ends].
    - apply Forall_map. eapply Forall_impl; [exact Hbs|]. intros b [_ Hb].
      split; [reflexivity | by apply no_cr_ends]. }
  assert (HL' : Forall (fun pb => clean (lit "</item>") pb.1 = true /\ clean (lit "<item>") pb.1 = true
                                  /\ clean (lit "</item>") pb.2 = true)
                  (map (fun pb => (pb.1, universal_newlines pb.2)) L)).
  { apply Forall_map. unfold L. apply Forall_app; split.
    - apply Forall_zip_with_intro. intros e t. cbn [fst snd].
      split_and!; [reflexivity | reflexivity |].
      apply clean_univ; [apply no_nl_close | apply render_body_clean].
    - apply Forall_map. eapply Forall_impl; [exact Hbs|]. intros b [Hb _]. cbn [fst snd].
      split_and!; [reflexivity | reflexivity |]. by apply clean_univ; [apply no_nl_close|]. }
  unfold feed_entries, feed_of, feed_text. rewrite Hc.
  rewrite univ_app by apply feed_header_ends.
  rewrite univ_app by apply wrap_ends.
  rewrite univ_wrap by exact HL.
  rewrite (univ_no_cr feed_trailer) by reflexivity.
  unfold existing_items_of, split_str.
  rewrite split_wrap.
  - cbn [rev app]. rewrite items_of_parts_wrap.
    + unfold L. rewrite !map_app, map_entries_render, map_entries_old by exact Hbs. reflexivity.
    + apply clean_univ; [apply no_nl_open | apply feed_header_clean; by right].
    + eapply Forall_impl; [exact HL'|]. by intros pb (_ & ? & _).
  - apply clean_univ; [apply no_nl_close | apply feed_header_clean; by left].
  - reflexivity.
  - eapply Forall_impl; [exact HL'|]. by intros pb (? & _ & ?).
Qed.

End Feed_parse.

Section Round_trip.
Context {node : Type}.
Variable cfg : config.

Lemma rss_entries_map evs ts :
  zip_with rss_entry evs ts
  = map entry_of (zip_with (fun e t => universal_newlines (render_body e t)) evs ts).
Proof.
  revert ts. induction evs as [|e evs IH]; intros [|t ts]; try done.
  cbn [zip_with map]. by rewrite IH.
Qed.

Lemma rss_bodies_ok evs ts :
  Forall (fun b => clean (lit "</item>") b = true /\ mem_char (chr 13) b = false)
    (zip_with (fun e t => universal_newlines (render_body e t)) evs ts).
Proof.
  apply Forall_zip_with_intro. intros e t. split.
  - apply clean_univ; [apply no_nl_close | apply render_body_clean].
  - apply univ_out_no_cr.
Qed.

Lemma update_rss_feed_nil (w : @world node) : update_rss_feed cfg [] w = Done () w.
Proof. reflexivity. Qed.

(** What a successful [update_rss_feed] on new events leaves in the feed
    file. *)
Lemma update_rss_feed_written e evs (w w' : @world node) c :
  update_rss_feed cfg (e :: evs) w = Done () w' -> w_feed w' = Some c ->
  exists ts build, length ts = S (length evs) /\
    w_feed_readable w' = w_feed_readable w /\
    c = feed_of cfg build (zip_with render_item (rev (e :: evs)) ts ++ stored_items w).
Proof.
  intros U F. destruct (update_rss_feed_spec cfg e evs w) as (ts & b & w1 & Hl & Hk & Hu).
  rewrite Hu in U. unfold write_feed in U. destruct (w_feed_writable w1); [|discriminate].
  injection U as <-. cbn in F. injection F as <-.
  exists ts, b. split_and!; [exact Hl | apply Hk | reflexivity].
Qed.

Lemma stored_items_none (w : @world node) : w_feed w = None -> stored_items w = [].
Proof. unfold stored_items. by intros ->. Qed.

Lemma stored_items_some (w : @world node) c :
  w_feed w = Some c -> w_feed_readable w = true -> stored_items w = feed_entries c.
Proof. unfold stored_items. by intros -> ->. Qed.

End Round_trip.

(** ** C6 *)

(** C6: publish [evs1] into a run with no feed file, read the written
    feed back as the existing feed of a second publish of [evs2]: the
    second feed holds the [evs2] entries, last discovered first, followed by
    the entries of the first feed in their order, [length evs1 + length
    evs2] entries in all. Entries are counted as [update_rss_feed] itself
    reads them back ([feed_entries]). *)
Theorem feed_round_trip {node} cfg (evs1 evs2 : list event) (w0 w1 w2 : @world node) c1 c2 :
  w_feed w0 = None ->
  update_rss_feed cfg evs1 w0 = Done () w1 -> w_feed w1 = Some c1 ->
  w_feed_readable w1 = true ->
  update_rss_feed cfg evs2 w1 = Done () w2 -> w_feed w2 = Some c2 ->
  exists ts1 ts2,
    length ts1 = length evs1 /\ length ts2 = length evs2 /\
    feed_entries c1 = zip_with rss_entry (rev evs1) ts1 /\
    feed_entries c2 = zip_with rss_entry (rev evs2) ts2 ++ feed_entries c1 /\
    length (feed_entries c2) = length evs1 + length evs2.
Proof.
  intros H0 U1 F1 R1 U2 F2.
  destruct evs1 as [|e1 es1].
  { rewrite update_rss_feed_nil in U1. injection U1 as <-. congruence. }
  destruct (update_rss_feed_written cfg e1 es1 w0 w1 c1 U1 F1) as (ts1 & b1 & Hl1 & _ & Hc1).
  rewrite stored_items_none in Hc1 by exact H0.
  assert (E1 : feed_entries c1 = zip_with rss_entry (rev (e1 :: es1)) ts1).
  { pose proof (feed_entries_feed_of cfg b1 (rev (e1 :: es1)) ts1 [] (List.Forall_nil _)) as E.
    cbn [map] in E. by rewrite Hc1, E, app_nil_r. }
  assert (L1 : length (zip_with rss_entry (rev (e1 :: es1)) ts1) = length (e1 :: es1)).
  { rewrite length_zip_with, length_rev, Hl1. simpl. lia. }
  exists ts1.
  destruct evs2 as [|e2 es2].
  { rewrite update_rss_feed_nil in U2. injection U2 as <-.
    rewrite F1 in F2. injection F2 as <-.
    exists []. split_and!; [exact Hl1 | done | exact E1 | done |].
    rewrite E1, L1. simpl. lia. }
  destruct (update_rss_feed_written cfg e2 es2 w1 w2 c2 U2 F2) as (ts2 & b2 & Hl2 & _ & Hc2).
  rewrite (stored_items_some w1 c1 F1 R1), E1, rss_entries_map in Hc2.
  assert (E2 : feed_entries c2 = zip_with rss_entry (rev (e2 :: es2)) ts2 ++ feed_entries c1).
  { rewrite Hc2, feed_entries_feed_of by apply rss_bodies_ok.
    by rewrite E1, (rss_entries_map (rev (e1 :: es1))). }
  exists ts2. split_and!; [exact Hl1 | exact Hl2 | exact E1 | exact E2 |].
  rewrite E2, length_app, E1, L1, length_zip_with, length_rev, Hl2. simpl. lia.
Qed.

Definition outcome_world {node A} (o : @outcome node A) : @world node :=
  match o with Done _ w => w | Exit _ w => w end.

Definition feed_content {node} (w : @world node) : str := default [] (w_feed w).

Definition rt_event (id title : string) : event :=
  mk_event (lit id) (lit id) (lit title) (lit "2025-03-01").

Definition rt_evs1 : list event :=
  [rt_event "https://x.org/reg/a" "A </item> & <item> B"; rt_event "https://x.org/reg/b" "B"].

Definition rt_evs2 : list event :=
  [mk_event (lit "https://x.org/reg/c") (lit "https://x.org/reg/c")
     (lit "C" ++ [chr 13] ++ lit "D") (lit "soon")].

Definition rt_w0 : @world nat := toy_world true StateMissing None true true.
Definition rt_w1 : @world nat := outcome_world (update_rss_feed toy_cfg rt_evs1 rt_w0).
Definition rt_w2 : @world nat := outcome_world (update_rss_feed toy_cfg rt_evs2 rt_w1).

Lemma feed_round_trip_witness :
  exists ts1 ts2,
    length ts1 = length rt_evs1 /\ length ts2 = length rt_evs2 /\
    feed_entries (feed_content rt_w1) = zip_with rss_entry (rev rt_evs1) ts1 /\
    feed_entries (feed_content rt_w2)
      = zip_with rss_entry (rev rt_evs2) ts2 ++ feed_entries (feed_content rt_w1) /\
    length (feed_entries (feed_content rt_w2)) = length rt_evs1 + length rt_evs2.
Proof.
  apply (feed_round_trip toy_cfg rt_evs1 rt_evs2 rt_w0 rt_w1 rt_w2); vm_compute; reflexivity.
Defined.

(** ** C10 *)

(** C10: the item [generate_rss_item] renders for an event dated [A&B]
    has the description [Registration Date: A&amp;amp;B]: the date is
    escaped once into [date_str] and once more with the description, so a
    feed reader shows [A&amp;B]. The title and the link are escaped once
    and hold no [<]; the guid repeats the link. *)
Theorem rss_item_description_double_escape id link title t :
  render_item (mk_event id link title (lit "A&B")) t
  = rss_item_text (escape title) (escape link) (lit "Registration Date: A&amp;amp;B")
      (strftime_rfc822 t)
  /\ lt_free (escape title) /\ lt_free (escape link).
Proof. split_and!; [reflexivity | apply escape_lt_free | apply escape_lt_free]. Qed.

(** * Further properties of the script *)

(** ** The state file *)

(** Python's [<] on [str]. *)
Definition str_lt (s t : str) : Prop := str_ltb s t = true.

Lemma str_ltb_total s t : s <> t -> str_ltb s t = false -> str_ltb t s = true.
Proof.
  revert t. induction s as [|c s IH]; intros [|d t] Hne H; simpl in *; try done.
  destruct (Nat.ltb_spec (nat_of_ascii c) (nat_of_ascii d)); [done|].
  destruct (Nat.eqb_spec (nat_of_ascii c) (nat_of_ascii d)) as [E|E].
  - assert (c = d) as <-.
    { rewrite <- (ascii_nat_embedding c), <- (ascii_nat_embedding d). congruence. }
    rewrite Nat.ltb_irrefl, Nat.eqb_refl. apply IH; [congruence | done].
  - destruct (Nat.ltb_spec (nat_of_ascii d) (nat_of_ascii c)); [done | lia].
Qed.

Lemma insert_sorted_sorted x l : Sorted str_lt l -> x ∉ l -> Sorted str_lt (insert_sorted x l).
Proof.
  induction l as [|y l IH]; intros Hs Hx; simpl; [by repeat constructor|].
  apply Sorted_inv in Hs as [Hs Hh]. apply not_elem_of_cons in Hx as [Hxy Hx].
  destruct (str_ltb y x) eqn:E.
  - constructor; [by apply IH|].
    destruct l as [|z l]; simpl; [by constructor|].
    apply HdRel_inv in Hh. destruct (str_ltb z x); by constructor.
  - constructor; [by constructor|]. constructor. by apply str_ltb_total.
Qed.

Lemma sorted_strs_sorted l : NoDup l -> Sorted str_lt (sorted_strs l).
Proof.
  induction l as [|x l IH]; intros Hnd; simpl; [constructor|].
  apply NoDup_cons in Hnd as [Hx Hnd]. apply insert_sorted_sorted; [by apply IH|].
  by rewrite (sorted_strs_perm l).
Qed.

(** ** Posts to the webhook *)

Section Posts.
Context {node : Type}.
Variable cfg : config.

Lemma post_to_webhook_posts e (w : @world node) :
  exists w', post_to_webhook cfg e w = Done () w' /\ keeps_files w w' /\
    w_posts w' = w_posts w ++ (if truthy (WEBHOOK_URL cfg) then [e] else []).
Proof.
  unfold post_to_webhook. destruct (truthy (WEBHOOK_URL cfg)); simpl.
  - exists (add_post e (tick w)). split_and!; [reflexivity | | reflexivity].
    unfold keeps_files. split_and!; reflexivity.
  - exists w. split_and!; [reflexivity | apply keeps_files_refl | by rewrite app_nil_r].
Qed.

Lemma process_events_posts evs seen_ids (w : @world node) :
  exists w', process_events cfg evs seen_ids w = Done (seen_ids ∪ list_to_set (map ev_id evs)) w' /\
    w_posts w' = w_posts w ++ (if truthy (WEBHOOK_URL cfg) then evs else []).
Proof.
  revert seen_ids w. induction evs as [|e evs IH]; intros seen_ids w.
  - exists w. split; [|by destruct (truthy _); rewrite app_nil_r]. simpl. f_equal. set_solver.
  - destruct (post_to_webhook_posts e w) as (w1 & Hp & _ & Hp1).
    destruct (IH ({[ev_id e]} ∪ seen_ids) w1) as (w2 & Hr & Hp2).
    exists w2. split.
    + cbn [process_events]. cbv [mbind prog_bind mret prog_ret]. rewrite Hp, Hr.
      f_equal. simpl. set_solver.
    + rewrite Hp2, Hp1, <- app_assoc. by destruct (truthy _).
Qed.

Lemma generate_items_posts evs (w : @world node) :
  exists items w', generate_items evs w = Done items w' /\ w_posts w' = w_posts w.
Proof.
  revert w. induction evs as [|e evs IH]; intros w; [by exists [], w|].
  destruct (IH (tick w)) as (items & w' & Hg & Hp).
  exists (render_item e (w_now w (w_tick w)) :: items), w'. split; [|exact Hp].
  cbn [generate_items]. cbv [mbind prog_bind mret prog_ret].
  rewrite generate_rss_item_eq, Hg. reflexivity.
Qed.

Lemma update_rss_feed_posts evs (w : @world node) :
  w_posts (outcome_world (update_rss_feed cfg evs w)) = w_posts w.
Proof.
  destruct evs as [|e evs]; [reflexivity|].
  destruct (generate_items_posts (rev (e :: evs)) w) as (items & w' & Hg & Hp).
  unfold update_rss_feed. cbv [mbind prog_bind mret prog_ret]. unfold read_existing_items.
  rewrite Hg. unfold write_feed. cbn. by destruct (w_feed_writable w').
Qed.

End Posts.

(** ** Theorems on the state file and the run *)

(** X1: [save_seen_events] then [load_seen_events] gives back the saved set. *)
Theorem save_then_load {node : Type} (X : gset str) (w w' : @world node) :
  save_seen_events X w = Done () w' -> load_seen_events w' = Done X w'.
Proof.
  unfold save_seen_events, load_seen_events. destruct (w_state_writable w); [|discriminate].
  intros [= <-]. cbn [w_state set_state]. by rewrite seen_of_store_saved.
Qed.

(** X2: The list [save_seen_events] writes is strictly ascending in Python's
    string order, without duplicates, and holds exactly the saved ids. *)
Theorem save_seen_events_sorted {node : Type} (X : gset str) (w w' : @world node) :
  save_seen_events X w = Done () w' ->
  exists l, w_state w' = StateJson l /\ Sorted str_lt l /\ NoDup l /\ l ≡ₚ elements X.
Proof.
  unfold save_seen_events. destruct (w_state_writable w); [|discriminate].
  intros [= <-]. eexists. split_and!; [reflexivity | | | apply sorted_strs_perm].
  - apply sorted_strs_sorted, NoDup_elements.
  - rewrite (sorted_strs_perm (elements X)). apply NoDup_elements.
Qed.

(** X3: Once the page and its links are found, a run posts every new event to
    the webhook once, in page order, when [WEBHOOK_URL] is set, and nothing
    otherwise; this holds whatever the exit status, as the posts come
    before the feed and the state file are written. *)
Theorem run_main_posts {node} {D : Dom node} hok cfg (w : @world node) soup nodes code w' :
  w_page w = Some soup -> dom_select soup (REG_LINK_SELECTOR cfg) = Ok nodes ->
  run_main hok cfg w = (code, w') ->
  w_posts w' = w_posts w ++
    (if truthy (WEBHOOK_URL cfg)
     then new_events_of (collect_events hok cfg nodes) (seen_of_store (w_state w)) else []).
Proof.
  intros Hp Hs Hr. unfold run_main in Hr. rewrite main_unfold, scrape_events_eq, Hp, Hs in Hr.
  destruct (new_events_of _ _) as [|e evs] eqn:Hn.
  - unfold save_seen_events in Hr.
    destruct (w_state_writable w); injection Hr as _ <-; by destruct (truthy _); rewrite app_nil_r.
  - destruct (process_events_posts cfg (e :: evs) (seen_of_store (w_state w)) w) as (w1 & Hpr & Hp1).
    rewrite Hpr in Hr.
    pose proof (update_rss_feed_posts cfg (e :: evs) w1) as Hu.
    destruct (update_rss_feed cfg (e :: evs) w1) as [u w2|c w2]; cbn [outcome_world] in Hu.
    + unfold save_seen_events in Hr.
      destruct (w_state_writable w2); injection Hr as _ <-; cbn; congruence.
    + injection Hr as _ <-. congruence.
Qed.

(** X4: When the page cannot be fetched, or the link selector raises, the run
    exits with status 1 before touching anything: state file, feed file
    and webhook are as before. *)
Theorem run_main_fetch_failure {node} {D : Dom node} hok cfg (w : @world node) :
  (w_page w = None \/
   exists soup e, w_page w = Some soup /\ dom_select soup (REG_LINK_SELECTOR cfg) = Raise e) ->
  run_main hok cfg w = (1, w).
Proof.
  unfold run_main. intros [Hp | (soup & e & Hp & Hs)].
  - by rewrite (main_no_page hok cfg w Hp).
  - by rewrite (main_select_raises hok cfg w soup e Hp Hs).
Qed.

Lemma new_events_of_empty (events : list event) : new_events_of events ∅ = events.
Proof.
  induction events as [|e es IH]; [done|]. unfold new_events_of in *. simpl.
  rewrite bool_decide_false by set_solver. simpl. by rewrite IH.
Qed.

(** X5: With the state file missing or unreadable, the seen set is empty and
    every extracted event is new. *)
Theorem missing_state_all_new {node} {D : Dom node} hok cfg (w : @world node) soup nodes :
  w_state w = StateMissing \/ w_state w = StateUnreadable ->
  w_page w = Some soup -> dom_select soup (REG_LINK_SELECTOR cfg) = Ok nodes ->
  scrape_events hok cfg w = Done (collect_events hok cfg nodes, ∅) w.
Proof.
  intros Hst Hp Hs. rewrite scrape_events_eq, Hp, Hs.
  assert (E : seen_of_store (w_state w) = ∅) by (destruct Hst as [-> | ->]; reflexivity).
  by rewrite E, new_events_of_empty.
Qed.

Definition toy_seen : gset str := {[lit "https://x.org/reg/b"; lit "https://x.org/reg/a"]}.

Lemma save_then_load_witness :
  load_seen_events (outcome_world (save_seen_events toy_seen toy_w0))
  = Done toy_seen (outcome_world (save_seen_events toy_seen toy_w0)).
Proof. apply (save_then_load toy_seen toy_w0). vm_compute. reflexivity. Defined.

Lemma save_seen_events_sorted_witness :
  exists l, w_state (outcome_world (save_seen_events toy_seen toy_w0)) = StateJson l /\
    Sorted str_lt l /\ NoDup l /\ l ≡ₚ elements toy_seen.
Proof. apply (save_seen_events_sorted toy_seen toy_w0). vm_compute. reflexivity. Defined.

Definition toy_cfg_hook : config :=
  mk_config (TARGET_URL toy_cfg) (REG_LINK_SELECTOR toy_cfg) (TITLE_SELECTOR toy_cfg)
    (DATE_SELECTOR toy_cfg) (lit "https://hooks.x.org/h").

Lemma run_main_posts_witness :
  w_posts (snd (@run_main nat (toy_dom toy_page) any_host toy_cfg_hook toy_w0))
  = w_posts toy_w0 ++
    new_events_of (@collect_events nat (toy_dom toy_page) any_host toy_cfg_hook [4; 6; 7])
      (seen_of_store (w_state toy_w0)).
Proof.
  apply (@run_main_posts nat (toy_dom toy_page) any_host toy_cfg_hook toy_w0 0 [4; 6; 7]
           (fst (@run_main nat (toy_dom toy_page) any_host toy_cfg_hook toy_w0)));
    vm_compute; reflexivity.
Defined.

Lemma run_main_fetch_failure_witness :
  @run_main nat (toy_dom toy_page) any_host toy_cfg (toy_world false StateMissing None true true)
  = (1, toy_world false StateMissing None true true).
Proof. apply run_main_fetch_failure. left. reflexivity. Defined.

Lemma missing_state_all_new_witness :
  @scrape_events nat (toy_dom toy_page) any_host toy_cfg (toy_world true StateUnreadable None true true)
  = Done (@collect_events nat (toy_dom toy_page) any_host toy_cfg [4; 6; 7], ∅)
      (toy_world true StateUnreadable None true true).
Proof. apply (missing_state_all_new _ _ _ 0); [right | | ]; vm_compute; reflexivity. Defined.

(** ** Parsing an arbitrary feed file *)

(** No match of [sep] starts inside [x] in the text [x ++ s]. *)
Definition no_match_in (sep x s : str) : Prop :=
  forall j, j < length x -> startswith sep (drop j x ++ s) = false.

(** No match of [sep] starts inside [p] when [sep] follows [p]: the parts
    [split] cuts before a separator have this property. *)
Definition part_ok (sep p : str) : Prop :=
  forall j, j < length p -> startswith sep (drop j p ++ sep) = false.

Section Parse_any.

Lemma startswith_app_r sep y r : startswith sep y = true -> startswith sep (y ++ r) = true.
Proof.
  revert y. induction sep as [|a sep IH]; intros [|b y]; simpl; try done.
  intros [-> H]%andb_prop. simpl. by apply IH.
Qed.

Lemma startswith_long sep y r :
  length sep <= length y -> startswith sep (y ++ r) = startswith sep y.
Proof.
  revert y. induction sep as [|a sep IH]; intros [|b y] Hl; simpl in *; try done; try lia.
  rewrite IH by lia. reflexivity.
Qed.

Lemma startswith_inv sep s : startswith sep s = true -> exists r, s = sep ++ r.
Proof.
  revert s. induction sep as [|a sep IH]; intros [|b s]; simpl; try done.
  - intros _. by exists [].
  - intros _. by exists (b :: s).
  - intros [E H]%andb_prop. apply Ascii.eqb_eq in E as ->.
    destruct (IH s H) as [r ->]. by exists r.
Qed.

Lemma split_go_scan sep x s cur :
  no_match_in sep x s -> split_go sep (x ++ s) cur 0 = split_go sep s (rev x ++ cur) 0.
Proof.
  revert cur. induction x as [|c x IH]; intros cur H; [done|].
  cbn [app split_go].
  rewrite (H 0 ltac:(simpl; lia) : startswith sep (c :: x ++ s) = false).
  rewrite IH.
  - cbn [rev]. by rewrite <- app_assoc.
  - intros j Hj. apply (H (S j)). simpl. lia.
Qed.

Lemma split_go_ne sep s cur k : split_go sep s cur k <> [].
Proof.
  revert cur k. induction s as [|c s IH]; intros cur [|k]; simpl; try done.
  destruct (startswith sep (c :: s)); [done | apply IH].
Qed.

Lemma part_ok_drop sep n p : part_ok sep p -> part_ok sep (drop n p).
Proof.
  intros H j Hj. rewrite length_drop in Hj. rewrite drop_drop. apply H. lia.
Qed.

(** Every part before the last one has [part_ok]. *)
Lemma split_go_parts sep s cur k :
  (k = 0 -> no_match_in sep (rev cur) s) -> (k <> 0 -> cur = []) ->
  Forall (part_ok sep) (removelast (split_go sep s cur k)).
Proof.
  revert cur k. induction s as [|c s IH]; intros cur k H0 Hk; [destruct k; constructor|].
  destruct k as [|k].
  - cbn [split_go]. destruct (startswith sep (c :: s)) eqn:E.
    + rewrite removelast_cons2 by apply split_go_ne. constructor.
      * intros j Hj. specialize (H0 eq_refl j Hj).
        destruct (startswith_inv sep _ E) as [r Hr]. rewrite Hr, app_assoc in H0.
        rewrite startswith_long in H0; [exact H0|]. rewrite length_app. lia.
      * apply IH; [intros _ j Hj; simpl in Hj; lia | done].
    + apply IH; [|done]. intros _ j Hj. cbn [rev] in *. rewrite length_app in Hj. simpl in Hj.
      destruct (decide (j < length (rev cur))) as [Hlt|Hge].
      * rewrite drop_app_le by lia. rewrite <- app_assoc. exact (H0 eq_refl j Hlt).
      * replace j with (length (rev cur)) by lia. rewrite drop_app_length. exact E.
  - cbn [split_go]. specialize (Hk ltac:(done)). subst cur.
    apply IH; [intros _ j Hj; simpl in Hj; lia | done].
Qed.

Lemma split_go_chars (P : ascii -> Prop) sep s cur k :
  Forall P s -> Forall P cur -> Forall (Forall P) (split_go sep s cur k).
Proof.
  revert cur k. induction s as [|c s IH]; intros cur k Hs Hc.
  - simpl. constructor; [by apply Forall_rev | constructor].
  - apply Forall_cons in Hs as [Hc' Hs]. destruct k as [|k]; cbn [split_go].
    + destruct (startswith sep (c :: s)).
      * constructor; [by apply Forall_rev | by apply IH].
      * apply IH; [done | by constructor].
    + by apply IH.
Qed.

Lemma find_sub_spec sub s i : find_sub sub s = Some i -> startswith sub (drop i s) = true.
Proof.
  revert i. induction s as [|c s IH]; intros i; simpl.
  - destruct (startswith sub []) eqn:E; [|done]. intros [= <-]. exact E.
  - destruct (startswith sub (c :: s)) eqn:E; [intros [= <-]; exact E|].
    destruct (find_sub sub s) as [i'|]; [|done]. intros [= <-]. by apply IH.
Qed.

Lemma Forall_removelast_l {A} (Q : A -> Prop) l : Forall Q l -> Forall Q (removelast l).
Proof.
  induction l as [|x [|y l] IH]; intros H; [constructor|constructor|].
  apply Forall_cons in H as [Hx H]. constructor; [done | by apply IH].
Qed.

(** The items read from the parts are [<item>], a body and [</item>]. *)
Lemma items_of_parts_form (P : ascii -> Prop) parts :
  Forall (fun p => part_ok (lit "</item>") p /\ Forall P p) parts ->
  Forall (fun it => exists b, it = entry_of b /\ part_ok (lit "</item>") b /\ Forall P b)
    (items_of_parts parts).
Proof.
  induction parts as [|p parts IH]; intros Hps; [constructor|].
  apply Forall_cons in Hps as [[Hp HP] Hps]. cbn [items_of_parts].
  destruct (find_sub (lit "<item>") p) as [i|] eqn:E; [|by apply IH].
  constructor; [|by apply IH].
  destruct (startswith_inv _ _ (find_sub_spec _ _ _ E)) as [b Hb].
  exists b. split; [unfold entry_of; by rewrite Hb, <- app_assoc|].
  assert (Hd : b = drop 6 (drop i p)) by (rewrite Hb; reflexivity).
  split; [rewrite Hd; by do 2 apply part_ok_drop|].
  rewrite Hd. by do 2 apply Forall_drop.
Qed.

Lemma existing_items_form (P : ascii -> Prop) content :
  Forall P content ->
  Forall (fun it => exists b, it = entry_of b /\ part_ok (lit "</item>") b /\ Forall P b)
    (existing_items_of content).
Proof.
  intros HP. unfold existing_items_of, split_str. apply items_of_parts_form.
  apply Forall_and; split.
  - apply split_go_parts; [intros _ j Hj; simpl in Hj; lia | done].
  - apply Forall_removelast_l. apply split_go_chars; [done | constructor].
Qed.

End Parse_any.

Section Keep_any.

Lemma clean_drop sep q j : clean sep q = true -> j < length q -> compat sep (drop j q) = false.
Proof.
  revert j. induction q as [|c q IH]; intros j H Hj; simpl in Hj; [lia|].
  apply andb_prop in H as [H1 H2]. destruct j as [|j].
  - by apply negb_true_iff in H1.
  - apply IH; [done | lia].
Qed.

Lemma clean_no_match sep q r : clean sep q = true -> no_match_in sep q r.
Proof.
  intros H j Hj. destruct (startswith sep (drop j q ++ r)) eqn:E; [|done].
  apply startswith_compat, compat_app in E. by rewrite clean_drop in E.
Qed.

Lemma clean_part_ok sep q : clean sep q = true -> part_ok sep q.
Proof. intros H j Hj. by apply clean_no_match. Qed.

Lemma part_ok_no_match sep b r : part_ok sep b -> no_match_in sep b (sep ++ r).
Proof.
  intros H j Hj. rewrite app_assoc, startswith_long by (rewrite length_app; lia).
  by apply H.
Qed.

Lemma no_match_in_app sep q b s :
  no_match_in sep q (b ++ s) -> no_match_in sep b s -> no_match_in sep (q ++ b) s.
Proof.
  intros Hq Hb j Hj. rewrite length_app in Hj.
  destruct (decide (j < length q)) as [Hlt|Hge].
  - rewrite drop_app_le, <- app_assoc by lia. by apply Hq.
  - rewrite drop_app_ge by lia. apply Hb. lia.
Qed.

(** [split_wrap] for bodies that only need [part_ok]. *)
Lemma split_wrap_any l h t cur :
  clean (lit "</item>") h = true -> clean (lit "</item>") t = true ->
  Forall (fun pb => clean (lit "</item>") pb.1 = true /\ part_ok (lit "</item>") pb.2) l ->
  split_go (lit "</item>") (h ++ wrap_items l ++ t) cur 0 = parts_of (rev cur ++ h) l t.
Proof.
  revert h cur. induction l as [|[p b] l IH]; intros h cur Hh Ht Hl; cbn [wrap_items parts_of app].
  - rewrite <- (app_nil_r (h ++ t)), split_go_clean by (by apply clean_app).
    simpl. by rewrite rev_app_distr, rev_involutive, <- app_assoc.
  - apply Forall_cons in Hl as [[Hp Hb] Hl]. simpl in Hp, Hb.
    assert (E : h ++ (p ++ lit "<item>" ++ b ++ lit "</item>" ++ wrap_items l) ++ t
                = ((h ++ p ++ lit "<item>") ++ b) ++ lit "</item>" ++ (wrap_items l ++ t)).
    { by rewrite <- !app_assoc. }
    rewrite E, split_go_scan.
    + rewrite split_go_sep by done.
      pose proof (IH [] [] eq_refl Ht Hl) as IH'. cbn [app rev] in IH'.
      rewrite IH', rev_app_distr, rev_involutive. by rewrite <- !app_assoc.
    + apply no_match_in_app; [|by apply part_ok_no_match].
      apply clean_no_match. repeat apply clean_app; done.
Qed.

Lemma mem_char_Forall c s : mem_char c s = false -> Forall (fun d => Ascii.eqb c d = false) s.
Proof.
  unfold mem_char. induction s as [|d s IH]; simpl; [constructor|].
  intros [H1 H2]%orb_false_elim. constructor; [done | by apply IH].
Qed.

Lemma Forall_mem_char c s : Forall (fun d => Ascii.eqb c d = false) s -> mem_char c s = false.
Proof.
  unfold mem_char. induction s as [|d s IH]; simpl; [done|].
  intros [H1 H2]%Forall_cons. by rewrite H1, IH.
Qed.

(** The items [update_rss_feed] reads from a feed text are [<item>], a body
    with no [</item>] and no [\r], and [</item>]. *)
Lemma feed_entries_bodies c :
  exists bs, feed_entries c = map entry_of bs /\
    Forall (fun b => part_ok (lit "</item>") b /\ mem_char (chr 13) b = false) bs.
Proof.
  pose proof (existing_items_form (fun d => Ascii.eqb (chr 13) d = false) (universal_newlines c)
                (mem_char_Forall _ _ (univ_out_no_cr c))) as H.
  unfold feed_entries. induction H as [|it items [b (-> & Hb & Hr)] _ [bs [E Hbs]]].
  - by exists [].
  - exists (b :: bs). split; [by rewrite E|]. constructor; [|done].
    split; [done | by apply Forall_mem_char].
Qed.

Lemma map_entries_old_any bs :
  Forall (fun b => part_ok (lit "</item>") b /\ mem_char (chr 13) b = false) bs ->
  map (fun pb => entry_of pb.2)
    (map (fun pb => (pb.1, universal_newlines pb.2)) (map (fun b : str => ([] : str, b)) bs))
  = map entry_of bs.
Proof.
  induction bs as [|b bs IH]; intros Hbs; [done|].
  apply Forall_cons in Hbs as [[_ Hb] Hbs]. cbn [map fst snd].
  by rewrite univ_no_cr, IH.
Qed.

(** [feed_entries_feed_of] for old bodies that only need [part_ok]. *)
Lemma feed_entries_feed_of_any cfg build evs ts bs :
  Forall (fun b => part_ok (lit "</item>") b /\ mem_char (chr 13) b = false) bs ->
  feed_entries (feed_of cfg build (zip_with render_item evs ts ++ map entry_of bs))
  = zip_with rss_entry evs ts ++ map entry_of bs.
Proof.
  intros Hbs.
  set (L := zip_with (fun e t => (lit "  ", render_body e t)) evs ts ++ map (fun b : str => ([] : str, b)) bs).
  assert (Hc : concat (zip_with render_item evs ts ++ map entry_of bs) = wrap_items L).
  { unfold L. by rewrite concat_app, concat_render, concat_entries, wrap_items_app. }
  assert (HL : Forall (fun pb => mem_char (chr 13) pb.1 = false /\ ends_with_cr pb.2 = false) L).
  { unfold L. apply Forall_app; split.
    - apply Forall_zip_with_intro. intros e t. split; [reflexivity | apply render_body_ends].
    - apply Forall_map. eapply Forall_impl; [exact Hbs|]. intros b [_ Hb].
      split; [reflexivity | by apply no_cr_ends]. }
  assert (HL' : Forall (fun pb => clean (lit "</item>") pb.1 = true /\ clean (lit "<item>") pb.1 = true
                                  /\ part_ok (lit "</item>") pb.2)
                  (map (fun pb => (pb.1, universal_newlines pb.2)) L)).
  { apply Forall_map. unfold L. apply Forall_app; split.
    - apply Forall_zip_with_intro. intros e t. cbn [fst snd].
      split_and!; [reflexivity | reflexivity |]. apply clean_part_ok.
      apply clean_univ; [apply no_nl_close | apply render_body_clean].
    - apply Forall_map. eapply Forall_impl; [exact Hbs|]. intros b [Hb Hr]. cbn [fst snd].
      split_and!; [reflexivity | reflexivity |]. by rewrite univ_no_cr. }
  unfold feed_entries, feed_of, feed_text. rewrite Hc.
  rewrite univ_app by apply feed_header_ends.
  rewrite univ_app by apply wrap_ends.
  rewrite univ_wrap by exact HL.
  rewrite (univ_no_cr feed_trailer) by reflexivity.
  unfold existing_items_of, split_str.
  rewrite split_wrap_any.
  - cbn [rev app]. rewrite items_of_parts_wrap.
    + unfold L. rewrite !map_app, map_entries_render, map_entries_old_any by exact Hbs. reflexivity.
    + apply clean_univ; [apply no_nl_open | apply feed_header_clean; by right].
    + eapply Forall_impl; [exact HL'|]. by intros pb (_ & ? & _).
  - apply clean_univ; [apply no_nl_close | apply feed_header_clean; by left].
  - reflexivity.
  - eapply Forall_impl; [exact HL'|]. by intros pb (? & _ & ?).
Qed.

End Keep_any.

Lemma no_sub_no_match sep s :
  ~ (exists x y, s = x ++ sep ++ y) -> no_match_in sep s [].
Proof.
  intros Hn j Hj. rewrite app_nil_r. destruct (startswith sep (drop j s)) eqn:E; [|done].
  destruct (startswith_inv _ _ E) as [r Hr]. exfalso. apply Hn.
  exists (take j s), r. by rewrite <- Hr, take_drop.
Qed.

(** X6: Every item [update_rss_feed] keeps from the text of an existing feed
    runs from an [<item>] tag to the first [</item>] after it: it is
    [<item>], a body holding no [</item>], and [</item>]. *)
Theorem existing_item_shape (content : str) :
  Forall (fun it => exists b, it = entry_of b /\ ~ (exists x y, b = x ++ lit "</item>" ++ y))
    (existing_items_of content).
Proof.
  eapply Forall_impl.
  - apply (existing_items_form (fun _ => True)). by apply Forall_true.
  - intros it (b & -> & Hb & _). exists b. split; [done|].
    intros (x & y & ->). specialize (Hb (length x)).
    rewrite drop_app_length, <- app_assoc, startswith_self in Hb.
    discriminate (Hb ltac:(rewrite !length_app; simpl; lia)).
Qed.

(** X7: A feed text with no [</item>] in it yields no existing items: all of it
    is the last part of the split, which the loop skips. *)
Theorem existing_items_no_close (content : str) :
  ~ (exists x y, content = x ++ lit "</item>" ++ y) -> existing_items_of content = [].
Proof.
  intros Hn. unfold existing_items_of, split_str.
  rewrite <- (app_nil_r content), split_go_scan by (by apply no_sub_no_match).
  reflexivity.
Qed.

(** X8: Whatever feed file [update_rss_feed] finds readable, the file it
    writes for new events reads back as one entry per new event, last
    discovered first, followed by all the entries it read from the old
    file, in their order. *)
Theorem update_rss_feed_keeps_entries {node : Type} cfg e evs (w w' : @world node) c c' :
  w_feed w = Some c -> w_feed_readable w = true ->
  update_rss_feed cfg (e :: evs) w = Done () w' -> w_feed w' = Some c' ->
  exists ts, length ts = S (length evs) /\
    feed_entries c' = zip_with rss_entry (rev (e :: evs)) ts ++ feed_entries c.
Proof.
  intros F R U F'.
  destruct (update_rss_feed_written cfg e evs w w' c' U F') as (ts & b & Hl & _ & Hc).
  rewrite (stored_items_some w c F R) in Hc.
  destruct (feed_entries_bodies c) as (bs & Ebs & Hbs).
  exists ts. split; [exact Hl|].
  rewrite Hc, Ebs. by apply feed_entries_feed_of_any.
Qed.

Definition foreign_feed : str :=
  lit "<rss><item>kept</item>" ++ [chr 13; chr 10] ++ lit "<item><title>x</title></item> tail".

Definition kf_w0 : @world nat := toy_world true StateMissing (Some foreign_feed) true true.
Definition kf_w1 : @world nat := outcome_world (update_rss_feed toy_cfg rt_evs1 kf_w0).

Lemma existing_items_no_close_witness :
  ~ (exists x y, lit "<item>" = x ++ lit "</item>" ++ y) /\
  existing_items_of (lit "<item>") = [].
Proof.
  assert (Hn : ~ (exists x y, lit "<item>" = x ++ lit "</item>" ++ y)).
  { intros (x & y & E). apply (f_equal length) in E. rewrite !length_app in E.
    simpl in E. lia. }
  split; [exact Hn | exact (existing_items_no_close (lit "<item>") Hn)].
Defined.

Lemma update_rss_feed_keeps_entries_witness :
  exists ts, length ts = S (length (tl rt_evs1)) /\
    feed_entries (feed_content kf_w1)
    = zip_with rss_entry (rev rt_evs1) ts ++ feed_entries foreign_feed.
Proof.
  apply (update_rss_feed_keeps_entries toy_cfg (hd (rt_event EmptyString EmptyString) rt_evs1) (tl rt_evs1)
           kf_w0 kf_w1 foreign_feed (feed_content kf_w1)); vm_compute; reflexivity.
Defined.




(** ** Escaping *)

(** What [escape] makes of one character. *)
Definition esc_char (c : ascii) : str :=
  if Ascii.eqb "&" c then lit "&amp;"
  else if Ascii.eqb ">" c then lit "&gt;"
  else if Ascii.eqb "<" c then lit "&lt;"
  else [c].

Section Escape.

Lemma replace_char_app c r x y :
  replace_char c r (x ++ y) = replace_char c r x ++ replace_char c r y.
Proof.
  induction x as [|d x IH]; [done|]. cbn [app replace_char].
  destruct (Ascii.eqb c d); rewrite IH; [by rewrite app_assoc | done].
Qed.

Lemma escape_app x y : escape (x ++ y) = escape x ++ escape y.
Proof. unfold escape. by rewrite !replace_char_app. Qed.

Lemma escape_one c : escape [c] = esc_char c.
Proof. destruct c as [[] [] [] [] [] [] [] []]; reflexivity. Qed.

Lemma escape_flat s : escape s = flat_map esc_char s.
Proof.
  induction s as [|c s IH]; [done|].
  change (c :: s) with ([c] ++ s). rewrite escape_app, escape_one, IH. reflexivity.
Qed.

Lemma esc_char_cases c :
  c = "&"%char \/ c = ">"%char \/ c = "<"%char \/
  (esc_char c = [c] /\ Ascii.eqb "&" c = false).
Proof.
  unfold esc_char.
  destruct (Ascii.eqb "&" c) eqn:E1; [apply Ascii.eqb_eq in E1; auto|].
  destruct (Ascii.eqb ">" c) eqn:E2; [apply Ascii.eqb_eq in E2; auto|].
  destruct (Ascii.eqb "<" c) eqn:E3; [apply Ascii.eqb_eq in E3; auto|].
  auto.
Qed.

Lemma esc_char_prefix c d x y : esc_char c ++ x = esc_char d ++ y -> c = d /\ x = y.
Proof.
  intros H.
  destruct (esc_char_cases c) as [-> | [-> | [-> | [Ec Fc]]]];
  destruct (esc_char_cases d) as [-> | [-> | [-> | [Ed Fd]]]];
  try rewrite Ec in H; try rewrite Ed in H; cbn in H; try (injection H as H; subst);
  try done; try discriminate;
  try (injection H as <- H; by rewrite Ascii.eqb_refl in *).
Qed.

Lemma esc_char_ne c : esc_char c <> [].
Proof. unfold esc_char. by repeat destruct (Ascii.eqb _ c). Qed.

Lemma esc_char_no_angle c :
  mem_char "<" (esc_char c) = false /\ mem_char ">" (esc_char c) = false.
Proof.
  destruct (esc_char_cases c) as [-> | [-> | [-> | [Ec _]]]]; [done | done | done |].
  rewrite Ec. unfold esc_char in Ec. unfold mem_char. cbn [existsb].
  destruct (Ascii.eqb ">" c) eqn:E2, (Ascii.eqb "<" c) eqn:E3; try (destruct (Ascii.eqb "&" c); discriminate).
  done.
Qed.

End Escape.

(** X10: [escape], applied to the title, the link and the date of an item and to
    the channel fields, is one to one (two different texts are never
    escaped to the same text), and its result holds no [<] and no [>]. *)
Theorem escape_injective (s t : str) :
  (escape s = escape t <-> s = t) /\
  mem_char "<" (escape s) = false /\ mem_char ">" (escape s) = false.
Proof.
  split; [split; [|by intros ->]|].
  - rewrite !escape_flat. revert t. induction s as [|c s IH]; intros [|d t]; cbn [flat_map]; try done.
    + intros H. symmetry in H. apply app_eq_nil in H as [H _]. by apply esc_char_ne in H.
    + intros H. apply app_eq_nil in H as [H _]. by apply esc_char_ne in H.
    + intros H. apply esc_char_prefix in H as [-> H]. f_equal. by apply IH.
  - rewrite escape_flat. induction s as [|c s IH]; [done|]. cbn [flat_map].
    destruct IH as [IH1 IH2]. destruct (esc_char_no_angle c) as [H1 H2].
    by rewrite !mem_char_app, H1, H2, IH1, IH2.
Qed.

(** ** The identity has no query and no fragment *)

Section Identity_free.

Lemma lower_char_qf c : is_qf c = false -> is_qf (lower_char c) = false.
Proof. destruct c as [[] [] [] [] [] [] [] []]; intros H; first [reflexivity | discriminate H]. Qed.

Lemma lower_qf_free s : qf_free s -> qf_free (lower s).
Proof. intros H. apply Forall_map. eapply Forall_impl; [exact H | apply lower_char_qf]. Qed.

Lemma split_scheme_qf_free1 p : qf_free p -> qf_free (split_scheme [] p).1.
Proof.
  intros Hp. unfold split_scheme.
  destruct (find_char ":" p); [|constructor]. destruct p as [|a p0]; [constructor|].
  destruct (_ && _ && _); [|constructor]. by apply lower_qf_free, qf_free_take.
Qed.

Lemma split_netloc_checked_qf_free_n hok u n v :
  qf_free u -> split_netloc_checked hok u = Ok (n, v) -> qf_free n.
Proof.
  intros Hu. unfold split_netloc_checked.
  destruct (startswith (lit "//") u); [|intros [= <- _]; constructor].
  assert (Hn : qf_free (splitnetloc u).1).
  { unfold splitnetloc. simpl. by apply qf_free_take, qf_free_drop. }
  destruct (splitnetloc u) as [n' v']; simpl in Hn.
  destruct (_ || _); [done|].
  destruct (_ && _); [|by intros [= <- _]].
  destruct (check_bracketed_netloc hok n'); simpl; [by intros [= <- _] | done].
Qed.

Lemma splitparams_qf_free v : qf_free v -> qf_free (splitparams v).1.
Proof.
  intros Hv. unfold splitparams.
  destruct (if mem_char "/" v then _ else _); [by apply qf_free_take | done].
Qed.

Lemma urlunsplit_qf_free s n p :
  qf_free s -> qf_free n -> qf_free p -> qf_free (urlunsplit s n p [] []).
Proof.
  intros Hs Hn Hp. unfold urlunsplit. cbn [str_eqb].
  assert (Hu : qf_free (if negb (str_eqb n []) ||
                  (negb (str_eqb s []) && str_in s uses_netloc && negb (startswith (lit "//") p))
                then let url := if negb (str_eqb p []) && negb (startswith (lit "/") p)
                                then "/"%char :: p else p in lit "//" ++ n ++ url
                else p)).
  { destruct (_ || _); [|done]. cbn zeta.
    apply qf_free_app; split; [repeat constructor|]. apply qf_free_app; split; [done|].
    destruct (_ && _); [by constructor | done]. }
  destruct (str_eqb s []); [done|].
  apply qf_free_app; split; [done | by constructor].
Qed.

Lemma identity_of_qf_free hok u i : qf_free u -> identity_of hok u = Ok i -> qf_free i.
Proof.
  intros Hu. unfold identity_of, urlparse, urlsplit.
  replace (remove_unsafe (strip_c0 [])) with (@nil ascii) by reflexivity.
  assert (Hp1 : qf_free (remove_unsafe (lstrip_c0 u)))
    by (apply remove_unsafe_qf_free, lstrip_c0_qf_free, Hu).
  pose proof (split_scheme_qf_free1 _ Hp1) as Hs.
  pose proof (split_scheme_qf_free [] _ Hp1) as Hv0.
  destruct (split_scheme [] (remove_unsafe (lstrip_c0 u))) as [s v0]; simpl in Hs, Hv0.
  destruct (split_netloc_checked hok v0) as [[n v]|e] eqn:E; simpl; [|done].
  pose proof (split_netloc_checked_qf_free_n _ _ _ _ Hv0 E) as Hn.
  pose proof (split_netloc_checked_qf_free _ _ _ _ Hv0 E) as Hv.
  rewrite (split_fragment_query_free _ Hv). simpl.
  assert (Hpath : forall b : bool, qf_free (if b then splitparams v else (v, [])).1)
    by (intros []; [by apply splitparams_qf_free | done]).
  destruct (_ && mem_char ";" v); [pose proof (Hpath true) as Hp'; destruct (splitparams v) as [path params]
                                   | pose proof (Hpath false) as Hp'];
    simpl in Hp' |- *; intros [= <-]; unfold urlunparse; cbn [pr_params pr_path pr_scheme pr_netloc pr_query pr_fragment str_eqb];
    by apply urlunsplit_qf_free.
Qed.

End Identity_free.

(** X11: The identity [normalize_url] returns never holds a [?] or a [#]: the
    query and the fragment of the resolved link are always removed. *)
Theorem normalize_url_id_no_query hok (url base_url stable_id full_link : str) :
  normalize_url hok url base_url = Ok (stable_id, full_link) ->
  mem_char "?" stable_id = false /\ mem_char "#" stable_id = false.
Proof.
  rewrite normalize_url_split. destruct (urljoin hok base_url url) as [a|e]; [|done].
  rewrite identity_of_before_query_fragment.
  destruct (before_after_query_fragment a) as (_ & Hf & _).
  destruct (identity_of hok (before_query_fragment a)) as [i|e] eqn:E; [|done].
  intros [= <- _]. pose proof (identity_of_qf_free _ _ _ Hf E) as Hi.
  split; by apply mem_char_qf_free.
Qed.

Lemma normalize_url_id_no_query_witness :
  normalize_url any_host (lit "../reg?sid=1#top") (lit "https://x.org/courses/list")
  = Ok (lit "https://x.org/reg", lit "https://x.org/reg?sid=1#top") /\
  mem_char "?" (lit "https://x.org/reg") = false /\ mem_char "#" (lit "https://x.org/reg") = false.
Proof.
  assert (H : normalize_url any_host (lit "../reg?sid=1#top") (lit "https://x.org/courses/list")
              = Ok (lit "https://x.org/reg", lit "https://x.org/reg?sid=1#top"))
    by (vm_compute; reflexivity).
  split; [exact H | exact (normalize_url_id_no_query any_host _ _ _ _ H)].
Defined.

(** ** An unreadable feed file, and repeated links on one page *)

(** X12: When the feed file exists but cannot be read, the warning is printed and
    [update_rss_feed] goes on with no existing items: the file it writes
    reads back as the new entries only, and the old entries are lost. *)
Theorem update_rss_feed_unreadable {node : Type} cfg e evs (w w' : @world node) c' :
  w_feed_readable w = false ->
  update_rss_feed cfg (e :: evs) w = Done () w' -> w_feed w' = Some c' ->
  exists ts, length ts = S (length evs) /\
    feed_entries c' = zip_with rss_entry (rev (e :: evs)) ts.
Proof.
  intros R U F'.
  destruct (update_rss_feed_written cfg e evs w w' c' U F') as (ts & b & Hl & _ & Hc).
  assert (Hs : stored_items w = []) by (unfold stored_items; rewrite R; by destruct (w_feed w)).
  rewrite Hs in Hc. exists ts. split; [exact Hl|].
  pose proof (feed_entries_feed_of_any cfg b (rev (e :: evs)) ts [] (List.Forall_nil _)) as E.
  cbn [map] in E. by rewrite Hc, E, app_nil_r.
Qed.

(** The filter keeps every event whose id is not in the seen set. *)
Lemma new_events_of_filter_id (events : list event) (seen_ids : gset str) (x : str) :
  x ∉ seen_ids ->
  List.filter (fun e => bool_decide (ev_id e = x)) (new_events_of events seen_ids)
  = List.filter (fun e => bool_decide (ev_id e = x)) events.
Proof.
  intros Hx. unfold new_events_of. induction events as [|e es IH]; [done|]. cbn [List.filter].
  destruct (bool_decide (ev_id e = x)) eqn:E.
  - apply bool_decide_eq_true in E. rewrite bool_decide_false by (rewrite E; exact Hx).
    cbn [negb List.filter]. rewrite bool_decide_true by exact E. by rewrite IH.
  - destruct (negb (bool_decide (ev_id e ∈ seen_ids))); cbn [List.filter]; [rewrite E|]; exact IH.
Qed.

Definition uf_w0 : @world nat :=
  mk_world (Some 0) StateMissing true (Some foreign_feed) false true
    (fun i => mk_datetime 2025 3 (1 + i) 12 0 i 5) 0 [].
Definition uf_w1 : @world nat := outcome_world (update_rss_feed toy_cfg rt_evs1 uf_w0).

Lemma update_rss_feed_unreadable_witness :
  exists ts, length ts = S (length (tl rt_evs1)) /\
    feed_entries (feed_content uf_w1) = zip_with rss_entry (rev rt_evs1) ts.
Proof.
  apply (update_rss_feed_unreadable toy_cfg (hd (rt_event EmptyString EmptyString) rt_evs1)
           (tl rt_evs1) uf_w0 uf_w1 (feed_content uf_w1)); vm_compute; reflexivity.
Defined.


(** ** The nearest ancestor decides the title and the date *)

Section Nearest.
Context {node : Type} {D : Dom node}.
Variable cfg : config.

Lemma find_title_hit (pre post : list node) (a te : node) txt :
  Forall (fun p => dom_select_one p (TITLE_SELECTOR cfg) = Ok None) pre ->
  dom_select_one a (TITLE_SELECTOR cfg) = Ok (Some te) -> dom_get_text te = Ok txt ->
  find_title cfg (pre ++ a :: post) = Ok (Some txt).
Proof.
  intros Hpre Ha Ht. induction Hpre as [|p pre Hp _ IH]; cbn [app find_title].
  - by rewrite Ha, bind_Ok, Ht, bind_Ok.
  - by rewrite Hp, bind_Ok.
Qed.

Lemma find_date_hit (pre post : list node) (a de : node) attr :
  Forall (fun p => dom_select_one p (DATE_SELECTOR cfg) = Ok None) pre ->
  dom_select_one a (DATE_SELECTOR cfg) = Ok (Some de) -> dom_get de (lit "datetime") = Ok attr ->
  find_date cfg (pre ++ a :: post)
  = if opt_truthy attr then Ok attr else t ← dom_get_text de; Ok (Some t).
Proof.
  intros Hpre Ha Hd. induction Hpre as [|p pre Hp _ IH]; cbn [app find_date].
  - rewrite Ha, bind_Ok, Hd, bind_Ok. destruct attr as [d|]; [|reflexivity].
    cbn [opt_truthy]. by destruct (truthy d).
  - by rewrite Hp, bind_Ok.
Qed.

End Nearest.

(** X14: The title of an extracted event comes from the nearest ancestor of the
    link that holds a [TITLE_SELECTOR] match; the ancestors above it are
    never looked at. If that match has empty text, the title falls back to
    the link's own text, or to ["Untitled Event"]. *)
Theorem extract_title_nearest {node : Type} {D : Dom node} hok cfg (link : node) base
    (pre post : list node) (a te : node) txt ev :
  dom_parents link = Ok (pre ++ a :: post) ->
  Forall (fun p => dom_select_one p (TITLE_SELECTOR cfg) = Ok None) pre ->
  dom_select_one a (TITLE_SELECTOR cfg) = Ok (Some te) -> dom_get_text te = Ok txt ->
  extract_event_data hok cfg link base = Some ev ->
  (txt <> [] /\ ev_title ev = txt) \/
  (txt = [] /\ exists lt, dom_get_text link = Ok lt /\
                ev_title ev = if truthy lt then lt else lit "Untitled Event").
Proof.
  intros Hps Hpre Ha Ht He. unfold extract_event_data in He.
  destruct (extract_event_body hok cfg link base) as [r|] eqn:Hb; [subst r|discriminate].
  unfold extract_event_body in Hb.
  apply res_bind_Ok_inv in Hb as (href & _ & Hb).
  destruct (negb (truthy href)); [discriminate|].
  apply res_bind_Ok_inv in Hb as (ids & _ & Hb).
  apply res_bind_Ok_inv in Hb as (ps & Hps' & Hb). rewrite Hps in Hps'. injection Hps' as <-.
  apply res_bind_Ok_inv in Hb as (t0 & Ht0 & Hb).
  rewrite (find_title_hit cfg pre post a te txt Hpre Ha Ht) in Ht0. injection Ht0 as <-.
  apply res_bind_Ok_inv in Hb as (title & Htl & Hb).
  apply res_bind_Ok_inv in Hb as (ps' & _ & Hb).
  apply res_bind_Ok_inv in Hb as (d & _ & Hb).
  injection Hb as <-. cbn [ev_title].
  destruct (truthy txt) eqn:E.
  - injection Htl as <-. left. split; [by destruct txt | done].
  - right. split; [by destruct txt|].
    apply res_bind_Ok_inv in Htl as (lt & Hlt & Htl). injection Htl as <-. by exists lt.
Qed.

(** X15: The date of an extracted event comes from the nearest ancestor of the
    link that holds a [DATE_SELECTOR] match: its non-empty [datetime]
    attribute, or else its text; an empty text gives ["Date TBD"]. *)
Theorem extract_date_nearest {node : Type} {D : Dom node} hok cfg (link : node) base
    (pre post : list node) (a de : node) attr ev :
  dom_parents link = Ok (pre ++ a :: post) ->
  Forall (fun p => dom_select_one p (DATE_SELECTOR cfg) = Ok None) pre ->
  dom_select_one a (DATE_SELECTOR cfg) = Ok (Some de) -> dom_get de (lit "datetime") = Ok attr ->
  extract_event_data hok cfg link base = Some ev ->
  (opt_truthy attr = true /\ Some (ev_date ev) = attr) \/
  (opt_truthy attr = false /\ exists txt, dom_get_text de = Ok txt /\
                ev_date ev = if truthy txt then txt else lit "Date TBD").
Proof.
  intros Hps Hpre Ha Hd He. unfold extract_event_data in He.
  destruct (extract_event_body hok cfg link base) as [r|] eqn:Hb; [subst r|discriminate].
  unfold extract_event_body in Hb.
  apply res_bind_Ok_inv in Hb as (href & _ & Hb).
  destruct (negb (truthy href)); [discriminate|].
  apply res_bind_Ok_inv in Hb as (ids & _ & Hb).
  apply res_bind_Ok_inv in Hb as (ps & _ & Hb).
  apply res_bind_Ok_inv in Hb as (t0 & _ & Hb).
  apply res_bind_Ok_inv in Hb as (title & _ & Hb).
  apply res_bind_Ok_inv in Hb as (ps' & Hps' & Hb). rewrite Hps in Hps'. injection Hps' as <-.
  apply res_bind_Ok_inv in Hb as (d & Hd0 & Hb).
  rewrite (find_date_hit cfg pre post a de attr Hpre Ha Hd) in Hd0.
  injection Hb as <-. cbn [ev_date].
  destruct (opt_truthy attr) eqn:E.
  - injection Hd0 as <-. left. split; [done|].
    destruct attr as [d'|]; [|discriminate]. cbn [opt_truthy] in E. by rewrite E.
  - right. split; [done|].
    apply res_bind_Ok_inv in Hd0 as (txt & Htx & Hd0). injection Hd0 as <-. by exists txt.
Qed.

(** A course card whose link sits one level deeper than its title and
    date; the date element has an empty [datetime] attribute. *)
Definition nest_page : list toy_elem := [
  mk_toy_elem [] [] None [];
  mk_toy_elem [] [] (Some 0) [];
  mk_toy_elem [] (lit "Course C") (Some 1) [lit "h5.headline"];
  mk_toy_elem [] [] (Some 1) [];
  toy_link 3 "/reg/c" "Register";
  mk_toy_elem [(lit "datetime", [])] (lit "2 April") (Some 1) [lit "time, .date"]
].

Definition nest_event : event :=
  mk_event (lit "https://x.org/reg/c") (lit "https://x.org/reg/c") (lit "Course C") (lit "2 April").

Lemma extract_title_nearest_witness :
  (lit "Course C" <> [] /\ ev_title nest_event = lit "Course C") \/
  (lit "Course C" = [] /\ exists lt, @dom_get_text nat (toy_dom nest_page) 4 = Ok lt /\
                ev_title nest_event = if truthy lt then lt else lit "Untitled Event").
Proof.
  apply (@extract_title_nearest nat (toy_dom nest_page) any_host toy_cfg 4 (TARGET_URL toy_cfg)
           [3] [0] 1 2 (lit "Course C") nest_event); vm_compute; repeat constructor.
Defined.

Lemma extract_date_nearest_witness :
  (opt_truthy (Some []) = true /\ Some (ev_date nest_event) = Some []) \/
  (opt_truthy (Some []) = false /\ exists txt, @dom_get_text nat (toy_dom nest_page) 5 = Ok txt /\
                ev_date nest_event = if truthy txt then txt else lit "Date TBD").
Proof.
  apply (@extract_date_nearest nat (toy_dom nest_page) any_host toy_cfg 4 (TARGET_URL toy_cfg)
           [3] [0] 1 5 (Some []) nest_event); vm_compute; repeat constructor.
Defined.

(** ** Repeated links on one page *)

Lemma run_main_posts_list {node} {D : Dom node} hok cfg (w : @world node) soup nodes code w' :
  w_page w = Some soup -> dom_select soup (REG_LINK_SELECTOR cfg) = Ok nodes ->
  run_main hok cfg w = (code, w') ->
  w_posts w' = w_posts w ++
    (if truthy (WEBHOOK_URL cfg)
     then new_events_of (collect_events hok cfg nodes) (seen_of_store (w_state w)) else []).
Proof.
  intros Hp Hs Hr. unfold run_main in Hr. rewrite main_unfold, scrape_events_eq, Hp, Hs in Hr.
  destruct (new_events_of _ _) as [|e evs] eqn:Hn.
  - unfold save_seen_events in Hr.
    destruct (w_state_writable w); injection Hr as _ <-; by destruct (truthy _); rewrite app_nil_r.
  - destruct (process_events_posts cfg (e :: evs) (seen_of_store (w_state w)) w) as (w1 & Hpr & Hp1).
    rewrite Hpr in Hr.
    pose proof (update_rss_feed_posts cfg (e :: evs) w1) as Hu.
    destruct (update_rss_feed cfg (e :: evs) w1) as [u w2|c w2]; cbn [outcome_world] in Hu.
    + unfold save_seen_events in Hr.
      destruct (w_state_writable w2); injection Hr as _ <-; cbn; congruence.
    + injection Hr as _ <-. congruence.
Qed.

(** X13: A run does not merge repeated links of one page. With
    [WEBHOOK_URL] set, an id that is not in the loaded seen set is posted
    once for every extracted event that carries it, in page order, so a
    registration linked twice is posted twice; this holds whatever the
    exit status. *)
Theorem run_main_posts_repeats {node} {D : Dom node} hok cfg (w : @world node) soup nodes
    code w' (x : str) :
  w_page w = Some soup -> dom_select soup (REG_LINK_SELECTOR cfg) = Ok nodes ->
  truthy (WEBHOOK_URL cfg) = true -> x ∉ seen_of_store (w_state w) ->
  run_main hok cfg w = (code, w') ->
  List.filter (fun e => bool_decide (ev_id e = x)) (w_posts w')
  = List.filter (fun e => bool_decide (ev_id e = x)) (w_posts w)
    ++ List.filter (fun e => bool_decide (ev_id e = x)) (collect_events hok cfg nodes).
Proof.
  intros Hp Hs Hh Hx Hr.
  rewrite (run_main_posts_list hok cfg w soup nodes code w' Hp Hs Hr), Hh, List.filter_app.
  by rewrite new_events_of_filter_id.
Qed.

(** Two links to the same registration, with different queries. *)
Definition dup_page : list toy_elem := [
  mk_toy_elem [] [] None [];
  mk_toy_elem [] [] (Some 0) [];
  mk_toy_elem [] (lit "Course D") (Some 1) [lit "h5.headline"];
  toy_link 1 "/reg/d?from=top" "Register";
  toy_link 1 "/reg/d?from=bottom" "Register here"
].

Lemma run_main_posts_repeats_witness :
  List.filter (fun e => bool_decide (ev_id e = lit "https://x.org/reg/d"))
    (w_posts (snd (@run_main nat (toy_dom dup_page) any_host toy_cfg_hook toy_w0)))
  = List.filter (fun e => bool_decide (ev_id e = lit "https://x.org/reg/d")) (w_posts toy_w0)
    ++ List.filter (fun e => bool_decide (ev_id e = lit "https://x.org/reg/d"))
         (@collect_events nat (toy_dom dup_page) any_host toy_cfg_hook [3; 4]).
Proof.
  apply (@run_main_posts_repeats nat (toy_dom dup_page) any_host toy_cfg_hook toy_w0 0 [3; 4]
           (fst (@run_main nat (toy_dom dup_page) any_host toy_cfg_hook toy_w0))).
  - vm_compute. reflexivity.
  - vm_compute. reflexivity.
  - vm_compute. reflexivity.
  - apply (bool_decide_eq_false_1 _). vm_compute. reflexivity.
  - vm_compute. reflexivity.
Defined.
